(** * amazon_login.go: account/proxy selection, proxy replacement, session
      acquisition and persistence

    A shallow embedding of [src/amazon_login.go].  The Go program is a single
    sequential run; everything it cannot decide itself (the pseudo-random
    source, the browser driver, the JSON codec of the cookie type and the
    outcome of file writes) is gathered in the record [World], and each Go
    function becomes a function of that record and of the state it touches:

    - the mapping (a Go [map[string]Proxy], shared by reference between
      [main] and [selectRandomAccountAndProxy]) is a [gmap string Proxy]
      threaded through the calls;
    - the files are a [gmap string string] from path to content;
    - the browser side (the driver calls made so far and the one-slot
      channel [cookiesChan]) is the record [Browser]. *)

From stdpp Require Import gmap strings list.
From Stdlib Require Import ZArith Ascii.
From Stdlib Require DecimalString DecimalPos DecimalZ.

Local Open Scope string_scope.

(** ** Data (lines 18-31) *)

Record Account := { Email : string; Password : string }.

Record Proxy := { Server : string; Port : string }.

Record AccountProxyMapping := { apm_Email : string; apm_Proxy : Proxy }.

(** The driver's cookie record; only the fields read at line 236 are named.
    [Expires] is handed back to the driver untouched. *)
Record Cookie := {
  Name : string; Value : string; Path : string; Domain : string;
  Expires : Z; Secure : bool; HttpOnly : bool
}.

(** A Go [error] value is opaque to the program: it is only compared with
    [nil] and printed. *)
Definition error := string.

(** ** The pseudo-random source

    [rand.Intn n] panics for [n <= 0] and otherwise returns a value in
    [[0, n)].  The source is a stream of raw draws; the value returned is the
    head reduced modulo [n], so every value in range can occur. *)

Definition Rng := nat -> nat.

Definition Intn (n : nat) (g : Rng) : option (nat * Rng) :=
  match n with
  | O => None
  | S _ => Some (g 0 `mod` n, fun i => g (S i))
  end.

Inductive PanicMsg :=
| InvalidArgumentToIntn
| IndexOutOfRange.

Inductive Res (A : Type) :=
| Ok (a : A)
| Panic (m : PanicMsg).
Arguments Ok {A} a.
Arguments Panic {A} m.

(** [xs[rand.Intn(len(xs))]] *)
Definition randomElement {A} (xs : list A) (g : Rng) : Res (A * Rng) :=
  match Intn (length xs) g with
  | None => Panic InvalidArgumentToIntn
  | Some (i, g') =>
      match xs !! i with
      | Some x => Ok (x, g')
      | None => Panic IndexOutOfRange
      end
  end.

(** ** selectRandomAccountAndProxy (lines 121-130)

    [seeded] is the source as [rand.Seed(time.Now().UnixNano())] leaves it.
    The Go function writes into the caller's map; the embedding returns the
    map after the call, together with the source after the draws. *)

Definition selectRandomAccountAndProxy
    (seeded : Rng) (accounts : list Account) (proxies : list Proxy)
    (mapping : gmap string Proxy)
  : Res (Account * Proxy * gmap string Proxy * Rng) :=
  match randomElement accounts seeded with
  | Panic m => Panic m
  | Ok (account, g1) =>
      match mapping !! Email account with
      | Some proxy => Ok (account, proxy, mapping, g1)
      | None =>
          match randomElement proxies g1 with
          | Panic m => Panic m
          | Ok (proxy, g2) =>
              Ok (account, proxy, <[Email account := proxy]> mapping, g2)
          end
      end
  end.

(** ** The cookie file name (lines 108 and 230)

    [strings.Replace(email, "@", "_", -1)] replaces every occurrence of the
    one-character string ["@"]. *)

Fixpoint replaceAt (s : string) : string :=
  match s with
  | EmptyString => EmptyString
  | String c rest =>
      String (if Ascii.eqb c "@"%char then "_"%char else c) (replaceAt rest)
  end.

Definition cookieFileName (email : string) : string :=
  String.append "cookies_" (String.append (replaceAt email) ".json").

(** ** The browser driver

    Every driver operation the program issues is a [Call].  The driver's
    answers may depend on everything issued before (which proxy was
    configured, which cookies were injected), so the oracles of [World] take
    the calls made so far, most recent first. *)

Inductive Call :=
| CConfigure (p : Proxy)              (* NewContext + NewExecAllocator, ProxyServer *)
| CNavigate (url : string)
| CSleep (seconds : nat)
| CWaitVisible (sel : string)
| CSendKeys (sel text : string)
| CClick (sel : string)
| CSetCookie (c : Cookie)
| CEvaluate (script : string)
| CCookies
| COuterHTML (sel : string).

(** What a call to [ioutil.WriteFile] did: the file holds the data, or the
    write failed and left [left] at the path. *)
Inductive WriteResult :=
| Written
| WriteFailed (e : error) (left : option string).

Record World := {
  w_seed : Rng;
  w_do : list Call -> Call -> option error;
  w_evaluate : list Call -> string -> bool;
  w_cookies : list Call -> list Cookie;
  w_outerHTML : list Call -> string -> string;
  w_marshalCookies : list Cookie -> error + string;
  w_unmarshalCookies : string -> error + list Cookie;
  w_marshalMapping : list AccountProxyMapping -> error + string;
  w_writeFile : string -> string -> WriteResult
}.

(** The driver calls issued so far and the buffered channel
    [cookiesChan := make(chan []*chromedp.Cookie, 1)]. *)
Record Browser := {
  trace : list Call;
  chan : option (list Cookie)
}.

(** Result of one action: [nil], an error, or a channel operation that can
    never proceed. *)
Inductive Status :=
| Nil
| Err (e : error)
| Blocked.

Definition Task := Browser -> Status * Browser.

Definition issue (w : World) (c : Call) : Task := fun b =>
  (match w_do w (trace b) c with Some e => Err e | None => Nil end,
   {| trace := c :: trace b; chan := chan b |}).

Definition Navigate (w : World) (url : string) : Task := issue w (CNavigate url).
Definition Sleep (w : World) (seconds : nat) : Task := issue w (CSleep seconds).
Definition WaitVisible (w : World) (sel : string) : Task := issue w (CWaitVisible sel).
Definition SendKeys (w : World) (sel text : string) : Task := issue w (CSendKeys sel text).
Definition Click (w : World) (sel : string) : Task := issue w (CClick sel).
Definition SetCookie (w : World) (c : Cookie) : Task := issue w (CSetCookie c).

(** [chromedp.Evaluate(script, &exists).Do(ctx)]: the status and the value
    left in [exists] ([false], its zero value, when the call failed). *)
Definition Evaluate (w : World) (script : string) (b : Browser)
  : Status * bool * Browser :=
  let '(st, b') := issue w (CEvaluate script) b in
  (st, match st with Nil => w_evaluate w (trace b) script | _ => false end, b').

(** [chromedp.Cookies().Do(ctx)] *)
Definition Cookies (w : World) (b : Browser) : Status * list Cookie * Browser :=
  let '(st, b') := issue w CCookies b in
  (st, match st with Nil => w_cookies w (trace b) | _ => [] end, b').

(** [chromedp.OuterHTML(sel, &html).Do(ctx)] *)
Definition OuterHTML (w : World) (sel : string) (b : Browser)
  : Status * string * Browser :=
  let '(st, b') := issue w (COuterHTML sel) b in
  (st, match st with Nil => w_outerHTML w (trace b) sel | _ => "" end, b').

(** [cookiesChan <- cookies] on the one-slot channel. *)
Definition send (cookies : list Cookie) : Task := fun b =>
  match chan b with
  | None => (Nil, {| trace := trace b; chan := Some cookies |})
  | Some _ => (Blocked, b)
  end.

(** [<-cookiesChan] *)
Definition receive (b : Browser) : option (list Cookie * Browser) :=
  match chan b with
  | Some cookies => Some (cookies, {| trace := trace b; chan := None |})
  | None => None
  end.

(** [chromedp.Run(ctx, actions...)]: the actions in order, stopping at the
    first one that does not return [nil]. *)
Fixpoint Run (actions : list Task) (b : Browser) : Status * Browser :=
  match actions with
  | [] => (Nil, b)
  | a :: rest =>
      match a b with
      | (Nil, b') => Run rest b'
      | other => other
      end
  end.

(** ** performLogin (lines 133-155) *)

Definition captureCookies (w : World) : Task := fun b =>
  match Cookies w b with
  | (Nil, cookies, b') => send cookies b'
  | (st, _, b') => (st, b')
  end.

Definition performLogin (w : World) (account : Account) : Task :=
  Run [ Navigate w "https://www.amazon.com/ap/signin";
        Sleep w 2;
        WaitVisible w "#ap_email";
        SendKeys w "#ap_email" (Email account);
        Click w "#continue";
        Sleep w 1;
        WaitVisible w "#ap_password";
        SendKeys w "#ap_password" (Password account);
        Click w "#signInSubmit";
        Sleep w 2;
        WaitVisible w "#nav-link-accountList";
        captureCookies w ].

(** ** loadCookies (lines 107-118) *)

Definition loadCookies (w : World) (fs : gmap string string) (email : string)
  : error + list Cookie :=
  match fs !! cookieFileName email with
  | None => inl "open: no such file or directory"
  | Some data => w_unmarshalCookies w data
  end.

(** ** saveMapping (lines 94-104)

    Go ranges over the map in an unspecified order; the list handed to the
    codec is the map's entries. *)

Definition writeFile (w : World) (path data : string) (fs : gmap string string)
  : option error * gmap string string :=
  match w_writeFile w path data with
  | Written => (None, <[path := data]> fs)
  | WriteFailed e None => (Some e, delete path fs)
  | WriteFailed e (Some partial) => (Some e, <[path := partial]> fs)
  end.

Definition saveMapping (w : World) (filePath : string)
    (mapping : gmap string Proxy) (fs : gmap string string)
  : option error * gmap string string :=
  let mappings :=
    (fun kv => {| apm_Email := kv.1; apm_Proxy := kv.2 |}) <$> map_to_list mapping in
  match w_marshalMapping w mappings with
  | inl e => (Some e, fs)
  | inr data => writeFile w filePath data fs
  end.

(** ** main (lines 157-292)

    [main] here starts at line 172, with the three inputs loaded.  Each way
    the run can end is an [Outcome]. *)

Inductive Outcome :=
| Success (account : Account) (cookieFile : string)   (* line 291 *)
| Panicked (m : PanicMsg)                             (* run-time panic *)
| Spinning                                            (* still inside the loop of lines 209-211 *)
| Deadlock                                            (* a channel operation that cannot proceed *)
| ErrorUsingCookies (e : error)                       (* lines 257-260 *)
| LoginFailed (e : error) (html : string)             (* lines 264-270 *)
| ErrorMarshalingCookies (e : error)                  (* lines 276-279 *)
| ErrorSavingCookies (e : error)                      (* lines 280-283 *)
| ErrorSavingMapping (e : error).                     (* lines 286-289 *)

(** What a run leaves behind: the in-memory mapping, the files, and the
    browser side. *)
Record Machine := {
  mapping_of : gmap string Proxy;
  files : gmap string string;
  browser : Browser
}.

Inductive Step (A : Type) :=
| Return (a : A)
| Abort (o : Outcome).
Arguments Return {A} a.
Arguments Abort {A} o.

Definition configure (p : Proxy) (b : Browser) : Browser :=
  {| trace := CConfigure p :: trace b; chan := chan b |}.

(** [newProxy.Server == proxy.Server && newProxy.Port == proxy.Port] *)
Definition sameProxy (newProxy proxy : Proxy) : bool :=
  String.eqb (Server newProxy) (Server proxy) && String.eqb (Port newProxy) (Port proxy).

(** The loop of lines 209-211.  [fuel] bounds the number of iterations the
    model follows; the Go loop has no bound. *)
Fixpoint redraw (fuel : nat) (proxies : list Proxy) (proxy newProxy : Proxy) (g : Rng)
  : Step (Proxy * Rng) :=
  if sameProxy newProxy proxy then
    match fuel with
    | O => Abort Spinning
    | S fuel' =>
        match randomElement proxies g with
        | Panic m => Abort (Panicked m)
        | Ok (newProxy', g') => redraw fuel' proxies proxy newProxy' g'
        end
    end
  else Return (newProxy, g).

(** Lines 206-227: the body of [if proxyFailed]. *)
Definition replaceProxy (fuel : nat) (proxies : list Proxy) (proxy : Proxy)
    (account : Account) (mapping : gmap string Proxy) (g : Rng) (b : Browser)
  : Step (Proxy * gmap string Proxy * Rng * Browser) :=
  match randomElement proxies g with
  | Panic m => Abort (Panicked m)
  | Ok (newProxy, g1) =>
      match redraw fuel proxies proxy newProxy g1 with
      | Abort o => Abort o
      | Return (newProxy', g2) =>
          Return (newProxy', <[Email account := newProxy']> mapping, g2,
                  configure newProxy' b)
      end
  end.

Definition dquote : string := String (Ascii.ascii_of_nat 34) EmptyString.

Definition probeScript : string :=
  String.append "document.querySelector("
    (String.append dquote
      (String.append "#nav-link-accountList"
        (String.append dquote ") !== null"))).

(** Lines 235-241: the loop over the stored cookies. *)
Fixpoint injectCookies (w : World) (cookies : list Cookie) : Task := fun b =>
  match cookies with
  | [] => (Nil, b)
  | cookie :: rest =>
      match SetCookie w cookie b with
      | (Nil, b') => injectCookies w rest b'
      | other => other
      end
  end.

(** Lines 245-255: the validity probe and what follows it. *)
Definition validateOrLogin (w : World) (account : Account) (cookies : list Cookie)
  : Task := fun b =>
  match Evaluate w probeScript b with
  | (Nil, true, b') => send cookies b'
  | (_, _, b') => performLogin w account b'
  end.

(** Lines 229-271.  [None]: the run goes on to "Save cookies"; [Some o]: it
    returned from [main] with [o]. *)
Definition acquire (w : World) (account : Account) (fs : gmap string string)
    (b : Browser) : option Outcome * Browser :=
  match loadCookies w fs (Email account) with
  | inr cookies =>
      match Run [ injectCookies w cookies;
                  Navigate w "https://www.amazon.com";
                  Sleep w 2;
                  validateOrLogin w account cookies ] b with
      | (Nil, b') => (None, b')
      | (Err e, b') => (Some (ErrorUsingCookies e), b')
      | (Blocked, b') => (Some Deadlock, b')
      end
  | inl _ =>
      match performLogin w account b with
      | (Nil, b') => (None, b')
      | (Err e, b') =>
          let '(_, html, b'') := OuterHTML w "html" b' in
          (Some (LoginFailed e html), b'')
      | (Blocked, b') => (Some Deadlock, b')
      end
  end.

(** Lines 273-291. *)
Definition saveResults (w : World) (account : Account)
    (mapping : gmap string Proxy) (fs : gmap string string) (b : Browser)
  : Outcome * Machine :=
  match receive b with
  | None => (Deadlock, {| mapping_of := mapping; files := fs; browser := b |})
  | Some (cookies, b') =>
      match w_marshalCookies w cookies with
      | inl e =>
          (ErrorMarshalingCookies e,
           {| mapping_of := mapping; files := fs; browser := b' |})
      | inr cookieData =>
          match writeFile w (cookieFileName (Email account)) cookieData fs with
          | (Some e, fs') =>
              (ErrorSavingCookies e,
               {| mapping_of := mapping; files := fs'; browser := b' |})
          | (None, fs') =>
              match saveMapping w "account_proxy_mapping.json" mapping fs' with
              | (Some e, fs'') =>
                  (ErrorSavingMapping e,
                   {| mapping_of := mapping; files := fs''; browser := b' |})
              | (None, fs'') =>
                  (Success account (cookieFileName (Email account)),
                   {| mapping_of := mapping; files := fs''; browser := b' |})
              end
          end
      end
  end.

(** Lines 194-227: the reachability probe and, when it fails, the
    replacement. *)
Definition probeAndReplace (fuel : nat) (w : World) (proxies : list Proxy)
    (proxy : Proxy) (account : Account) (mapping : gmap string Proxy)
    (g : Rng) (b : Browser)
  : Step (Proxy * gmap string Proxy * Rng * Browser) * Browser :=
  match Run [ Navigate w "https://www.amazon.com"; Sleep w 2 ] b with
  | (Nil, b') => (Return (proxy, mapping, g, b'), b')
  | (Err _, b') => (replaceProxy fuel proxies proxy account mapping g b', b')
  | (Blocked, b') => (Abort Deadlock, b')
  end.

Definition main (fuel : nat) (w : World) (accounts : list Account)
    (proxies : list Proxy) (mapping : gmap string Proxy)
    (fs : gmap string string) : Outcome * Machine :=
  let b0 := {| trace := []; chan := None |} in
  match selectRandomAccountAndProxy (w_seed w) accounts proxies mapping with
  | Panic m =>
      (Panicked m, {| mapping_of := mapping; files := fs; browser := b0 |})
  | Ok (account, proxy, mapping1, g) =>
      match probeAndReplace fuel w proxies proxy account mapping1 g
              (configure proxy b0) with
      | (Abort o, b1) =>
          (o, {| mapping_of := mapping1; files := fs; browser := b1 |})
      | (Return (proxy', mapping2, _, b2), _) =>
          match acquire w account fs b2 with
          | (Some o, b3) =>
              (o, {| mapping_of := mapping2; files := fs; browser := b3 |})
          | (None, b3) => saveResults w account mapping2 fs b3
          end
      end
  end.


(** ** Reading a run *)

(** The outcomes in which no session was acquired: a panic, a loop or
    channel operation that never finishes, and the two early returns of
    lines 257-260 and 264-270. *)
Definition Failed (o : Outcome) : Prop :=
  match o with
  | Panicked _ | Spinning | Deadlock
  | ErrorUsingCookies _ | LoginFailed _ _ => True
  | _ => False
  end.

(** Did the program ask the driver for the page markup / for its cookies? *)
Definition isCapture (c : Call) : bool :=
  match c with COuterHTML _ => true | _ => false end.

Definition isCookieRead (c : Call) : bool :=
  match c with CCookies => true | _ => false end.


(** An action leaves the observation [f] of the browser side as it was. *)
Definition preserves {X} (f : Browser → X) (t : Task) : Prop :=
  ∀ b, f (t b).2 = f b.

Definition capturedMarkup (b : Browser) : bool := existsb isCapture (trace b).

(** ** Sample inputs

    Small pools, files and driver behaviours on which the functions above are
    evaluated below. *)

Module Sample.

Definition alice : Account :=
  {| Email := "alice@example.com"; Password := "correct horse" |}.
Definition bob : Account :=
  {| Email := "bob@example.com"; Password := "battery staple" |}.

Definition proxyA : Proxy := {| Server := "10.0.0.1"; Port := "8080" |}.
Definition proxyB : Proxy := {| Server := "10.0.0.2"; Port := "3128" |}.
Definition proxyC : Proxy := {| Server := "10.0.0.1"; Port := "3128" |}.

(** The cookie kept in the file, and the one the site has rotated to. *)
Definition stored : Cookie :=
  {| Name := "session-id"; Value := "old-token"; Path := "/";
     Domain := ".amazon.com"; Expires := 1900000000%Z;
     Secure := true; HttpOnly := true |}.
Definition rotated : Cookie :=
  {| Name := "session-id"; Value := "new-token"; Path := "/";
     Domain := ".amazon.com"; Expires := 1900003600%Z;
     Secure := true; HttpOnly := true |}.

Definition encode (cookies : list Cookie) : string :=
  String.concat "," (Value <$> cookies).

(** A toy codec: it knows the two one-cookie sets above. *)
Definition decode (data : string) : error + list Cookie :=
  if String.eqb data "old-token" then inr [stored]
  else if String.eqb data "new-token" then inr [rotated]
  else inl "invalid character".

(** A driver that fails exactly the calls [fails] names, whose validity
    probe answers [valid] and whose cookie jar holds [rotated]; the random
    source yields [draws]. *)
Definition world (draws : Rng) (fails : Call → option error) (valid : bool)
  : World :=
  {| w_seed := draws;
     w_do := fun _ c => fails c;
     w_evaluate := fun _ _ => valid;
     w_cookies := fun _ => [rotated];
     w_outerHTML := fun _ _ => "<html></html>";
     w_marshalCookies := fun cookies => inr (encode cookies);
     w_unmarshalCookies := decode;
     w_marshalMapping := fun _ => inr "[]";
     w_writeFile := fun _ _ => Written |}.

Definition always (n : nat) : Rng := fun _ => n.
Definition counting : Rng := fun i => i.

Definition noFailure : Call → option error := fun _ => None.

(** The proxy cannot reach the home page. *)
Definition proxyDown : Call → option error := fun c =>
  match c with
  | CNavigate url =>
      if String.eqb url "https://www.amazon.com"
      then Some "net::ERR_PROXY_CONNECTION_FAILED" else None
  | _ => None
  end.

(** The sign-in page never shows the e-mail field. *)
Definition signInStuck : Call → option error := fun c =>
  match c with
  | CWaitVisible sel =>
      if String.eqb sel "#ap_email"
      then Some "context deadline exceeded" else None
  | _ => None
  end.

Definition aliceFile : gmap string string :=
  {[ "cookies_alice_example.com.json" := "old-token" ]}.

Definition fresh : Browser := {| trace := []; chan := None |}.

End Sample.

(** ** Loading the inputs (lines 33-91) *)

(** [strings.Split(s, sep)] for a one-byte separator: the pieces of [s]
    between the occurrences of [sep], in order; a string without the
    separator (the empty string too) gives one piece. *)
Fixpoint Split (s : string) (sep : ascii) : list string :=
  match s with
  | EmptyString => [EmptyString]
  | String c rest =>
      if Ascii.eqb c sep then EmptyString :: Split rest sep
      else
        match Split rest sep with
        | part :: parts => String c part :: parts
        | [] => [String c EmptyString]
        end
  end.

Definition colon : ascii := ":"%char.

(** What the program gets from [os.Open] and the [bufio.Scanner] on a text
    file: the open fails, or the scanner yields lines and ends with
    [scanner.Err()]. *)
Inductive TextFile :=
| OpenError (e : error)
| Scanned (lines : list string) (scanErr : option error).

(** The loop of lines 43-49, [accounts] being the slice built so far. *)
Fixpoint scanAccounts (lines : list string) (accounts : list Account)
  : list Account :=
  match lines with
  | [] => accounts
  | line :: rest =>
      match Split line colon with
      | [part0; part1] =>
          scanAccounts rest
            (accounts ++ [{| Email := part0; Password := part1 |}])%list
      | _ => scanAccounts rest accounts
      end
  end.

(** loadAccounts (lines 34-51) *)
Definition loadAccounts (file : TextFile) : list Account * option error :=
  match file with
  | OpenError e => ([], Some e)
  | Scanned lines scanErr => (scanAccounts lines [], scanErr)
  end.

(** The loop of lines 63-69. *)
Fixpoint scanProxies (lines : list string) (proxies : list Proxy)
  : list Proxy :=
  match lines with
  | [] => proxies
  | line :: rest =>
      match Split line colon with
      | [part0; part1] =>
          scanProxies rest
            (proxies ++ [{| Server := part0; Port := part1 |}])%list
      | _ => scanProxies rest proxies
      end
  end.

(** loadProxies (lines 54-71) *)
Definition loadProxies (file : TextFile) : list Proxy * option error :=
  match file with
  | OpenError e => ([], Some e)
  | Scanned lines scanErr => (scanProxies lines [], scanErr)
  end.

(** The result of [ioutil.ReadFile]. *)
Inductive FileRead :=
| NotExist
| ReadError (e : error)
| Contents (data : string).

Definition ReadFile (fs : gmap string string) (path : string) : FileRead :=
  match fs !! path with
  | Some data => Contents data
  | None => NotExist
  end.

(** The loop of lines 87-89. *)
Fixpoint collect (mappings : list AccountProxyMapping)
    (mapping : gmap string Proxy) : gmap string Proxy :=
  match mappings with
  | [] => mapping
  | m :: rest => collect rest (<[apm_Email m := apm_Proxy m]> mapping)
  end.

(** loadMapping (lines 74-91); [unmarshal] is [json.Unmarshal] into a
    [[]AccountProxyMapping]. *)
Definition loadMapping
    (unmarshal : string → error + list AccountProxyMapping) (r : FileRead)
  : error + gmap string Proxy :=
  match r with
  | NotExist => inr ∅
  | ReadError e => inl e
  | Contents data =>
      match unmarshal data with
      | inl e => inl e
      | inr mappings => inr (collect mappings ∅)
      end
  end.

(** The slice [saveMapping] hands to the codec (lines 95-98). *)
Definition toRecord (kv : string * Proxy) : AccountProxyMapping :=
  {| apm_Email := kv.1; apm_Proxy := kv.2 |}.

(** ** Reading strings and traces *)

Fixpoint countChar (c : ascii) (s : string) : nat :=
  match s with
  | EmptyString => 0
  | String c' rest => (if Ascii.eqb c' c then 1 else 0) + countChar c rest
  end.

(** The line [part0:part1]. *)
Definition joinColon (part0 part1 : string) : string :=
  part0 +:+ String colon part1.

(** The driver calls of [performLogin] before it reads the cookies
    (lines 135-145). *)
Definition loginSteps (account : Account) : list Call :=
  [ CNavigate "https://www.amazon.com/ap/signin";
    CSleep 2;
    CWaitVisible "#ap_email";
    CSendKeys "#ap_email" (Email account);
    CClick "#continue";
    CSleep 1;
    CWaitVisible "#ap_password";
    CSendKeys "#ap_password" (Password account);
    CClick "#signInSubmit";
    CSleep 2;
    CWaitVisible "#nav-link-accountList" ].


Definition isHomeNavigation (c : Call) : bool :=
  match c with
  | CNavigate url => String.eqb url "https://www.amazon.com"
  | _ => false
  end.

(** The driver calls of the cookie path before the validity probe
    (lines 235-244): one [SetCookie] per stored cookie, then the home
    page. *)
Definition cookieSteps (cookies : list Cookie) : list Call :=
  ((CSetCookie <$> cookies)
   ++ [ CNavigate "https://www.amazon.com"; CSleep 2 ])%list.


(** Does the string hold the character? *)
Definition holds (c : ascii) (s : string) : Prop := countChar c s ≠ 0.

(** ** More sample inputs *)

Module Sample2.

(** A driver and a disk as in [Sample.world], except that the mapping file
    cannot be written. *)
Definition mappingReadOnly (draws : Rng) (fails : Call → option error)
    (valid : bool) : World :=
  {| w_seed := draws;
     w_do := λ _ c, fails c;
     w_evaluate := λ _ _, valid;
     w_cookies := λ _, [Sample.rotated];
     w_outerHTML := λ _ _, "<html></html>";
     w_marshalCookies := λ cookies, inr (Sample.encode cookies);
     w_unmarshalCookies := Sample.decode;
     w_marshalMapping := λ _, inr "[]";
     w_writeFile := λ path _,
       if String.eqb path "account_proxy_mapping.json"
       then WriteFailed "permission denied" None else Written |}.

(** The driver rejects the cookie named [session-id]. *)
Definition rejectsSession : Call → option error := λ c,
  match c with
  | CSetCookie cookie =>
      if String.eqb (Name cookie) "session-id"
      then Some "invalid cookie fields" else None
  | _ => None
  end.

(** The validity probe itself fails. *)
Definition probeBroken : Call → option error := λ c,
  match c with
  | CEvaluate _ => Some "execution context was destroyed"
  | _ => None
  end.

(** As [Sample.world], except that no cookie file can be written. *)
Definition cookiesReadOnly (draws : Rng) (fails : Call → option error)
    (valid : bool) : World :=
  {| w_seed := draws;
     w_do := λ _ c, fails c;
     w_evaluate := λ _ _, valid;
     w_cookies := λ _, [Sample.rotated];
     w_outerHTML := λ _ _, "<html></html>";
     w_marshalCookies := λ cookies, inr (Sample.encode cookies);
     w_unmarshalCookies := Sample.decode;
     w_marshalMapping := λ _, inr "[]";
     w_writeFile := λ path _,
       if String.eqb path "account_proxy_mapping.json"
       then Written else WriteFailed "read-only file system" None |}.

Definition oldMapping : gmap string string :=
  {[ "account_proxy_mapping.json" := "[{...}]" ]}.

End Sample2.

(** ** The cookie codec

    [encoding/json] and the driver's cookie type are not under src/.  The
    spec (sections 3 and 6) has the cookie file hold the serialized
    CookieSet array in JSON, each record with its name, value, domain, path,
    expiry, secure flag and http-only flag.  The writer below produces that
    array without white space.  Each [put] function takes the text that
    follows, each [read] function returns what it read and the text left. *)

(** Modelled from the spec: the double quote that delimits a JSON string. *)
Definition quoteChar : ascii := Ascii.ascii_of_nat 34.

(** Modelled from the spec: the backslash that starts an escape in a JSON
    string. *)
Definition backslash : ascii := Ascii.ascii_of_nat 92.

(** Modelled from the spec: a hexadecimal digit of a [\u00XX] escape, for a
    value below 16. *)
Definition hexDigit (n : N) : ascii :=
  if (n <? 10)%N then Ascii.ascii_of_N (48 + n) else Ascii.ascii_of_N (87 + n).

(** Modelled from the spec: the value of a hexadecimal digit, in either
    case. *)
Definition hexValue (c : ascii) : option N :=
  let n := Ascii.N_of_ascii c in
  if ((48 <=? n) && (n <=? 57))%N then Some (n - 48)%N
  else if ((97 <=? n) && (n <=? 102))%N then Some (n - 87)%N
  else if ((65 <=? n) && (n <=? 70))%N then Some (n - 55)%N
  else None.

(** Modelled from the spec: the characters a JSON string cannot hold as they
    are: the quote, the backslash and the control characters. *)
Definition needsEscape (c : ascii) : bool :=
  Ascii.eqb c quoteChar || Ascii.eqb c backslash
  || (Ascii.N_of_ascii c <? 32)%N.

(** Modelled from the spec: one character of a JSON string, written as
    [\u00XX] when it needs an escape, followed by the text [k]. *)
Definition escapeChar (c : ascii) (k : string) : string :=
  if needsEscape c then
    String backslash
      (String "u" (String "0" (String "0"
        (String (hexDigit (Ascii.N_of_ascii c / 16))
          (String (hexDigit (Ascii.N_of_ascii c mod 16)) k)))))
  else String c k.

(** Modelled from the spec: the body of a JSON string, followed by the text
    [k]. *)
Fixpoint putEscaped (s : string) (k : string) : string :=
  match s with
  | EmptyString => k
  | String c rest => escapeChar c (putEscaped rest k)
  end.

(** Modelled from the spec: a JSON string between its quotes, followed by
    the text [k]. *)
Definition putString (s : string) (k : string) : string :=
  String quoteChar (putEscaped s (String quoteChar k)).

(** Modelled from the spec: the character of a [\uXXXX] escape, for a code
    below 256 (the strings here are byte strings). *)
Definition unicodeEscape (h1 h2 h3 h4 : ascii) : option ascii :=
  match hexValue h1, hexValue h2, hexValue h3, hexValue h4 with
  | Some 0%N, Some 0%N, Some a, Some b => Some (Ascii.ascii_of_N (16 * a + b))
  | _, _, _, _ => None
  end.

(** Modelled from the spec: the character of a two-character JSON escape. *)
Definition simpleEscape (e : ascii) : option ascii :=
  if Ascii.eqb e quoteChar then Some quoteChar
  else if Ascii.eqb e backslash then Some backslash
  else if Ascii.eqb e "/" then Some "/"%char
  else if Ascii.eqb e "b" then Some (Ascii.ascii_of_nat 8)
  else if Ascii.eqb e "f" then Some (Ascii.ascii_of_nat 12)
  else if Ascii.eqb e "n" then Some (Ascii.ascii_of_nat 10)
  else if Ascii.eqb e "r" then Some (Ascii.ascii_of_nat 13)
  else if Ascii.eqb e "t" then Some (Ascii.ascii_of_nat 9)
  else None.

(** Modelled from the spec: reading the body of a JSON string after its
    opening quote: the string read and the text after the closing quote. *)
Fixpoint readEscaped (s : string) : option (string * string) :=
  match s with
  | EmptyString => None
  | String c rest =>
      if Ascii.eqb c quoteChar then Some (EmptyString, rest)
      else if Ascii.eqb c backslash then
        match rest with
        | String e rest1 =>
            if Ascii.eqb e "u" then
              match rest1 with
              | String h1 (String h2 (String h3 (String h4 rest'))) =>
                  match unicodeEscape h1 h2 h3 h4, readEscaped rest' with
                  | Some ch, Some (body, k) => Some (String ch body, k)
                  | _, _ => None
                  end
              | _ => None
              end
            else
              match simpleEscape e, readEscaped rest1 with
              | Some ch, Some (body, k) => Some (String ch body, k)
              | _, _ => None
              end
        | EmptyString => None
        end
      else if (Ascii.N_of_ascii c <? 32)%N then None
      else
        match readEscaped rest with
        | Some (body, k) => Some (String c body, k)
        | None => None
        end
  end.

(** Modelled from the spec: reading a JSON string: the string and the text
    left. *)
Definition readString (s : string) : option (string * string) :=
  match s with
  | String c rest => if Ascii.eqb c quoteChar then readEscaped rest else None
  | EmptyString => None
  end.

(** Modelled from the spec: reading a fixed piece of JSON text: the text
    left after it. *)
Fixpoint expect (lit s : string) : option string :=
  match lit with
  | EmptyString => Some s
  | String c lit' =>
      match s with
      | String c' s' => if Ascii.eqb c c' then expect lit' s' else None
      | EmptyString => None
      end
  end.

(** Modelled from the spec: a JSON boolean, the form of the secure and http-
    only flags, followed by the text [k]. *)
Definition putBool (b : bool) (k : string) : string :=
  (if b then "true" else "false") +:+ k.

(** Modelled from the spec: reading a JSON boolean. *)
Definition readBool (s : string) : option (bool * string) :=
  match expect "true" s with
  | Some k => Some (true, k)
  | None =>
      match expect "false" s with
      | Some k => Some (false, k)
      | None => None
      end
  end.

(** Modelled from the spec: the characters of a JSON integer. *)
Definition numberChar (c : ascii) : bool :=
  Ascii.eqb c "-"
  || ((48 <=? Ascii.N_of_ascii c) && (Ascii.N_of_ascii c <=? 57))%N.

(** Modelled from the spec: the longest run of number characters at the head
    of a text, and the text left. *)
Fixpoint spanNumber (s : string) : string * string :=
  match s with
  | EmptyString => (EmptyString, EmptyString)
  | String c rest =>
      if numberChar c then
        let '(num, k) := spanNumber rest in (String c num, k)
      else (EmptyString, s)
  end.

(** Modelled from the spec: a JSON integer in decimal, the form of the
    expiry, followed by the text [k]. *)
Definition putNumber (z : Z) (k : string) : string :=
  DecimalString.NilEmpty.string_of_int (Z.to_int z) +:+ k.

(** Modelled from the spec: reading a JSON integer. *)
Definition readNumber (s : string) : option (Z * string) :=
  let '(num, k) := spanNumber s in
  if String.eqb num "" || String.eqb num "-" then None
  else
    match DecimalString.NilEmpty.int_of_string num with
    | Some d => Some (Z.of_int d, k)
    | None => None
    end.

(** Modelled from the spec: the key of a record field, quoted and followed
    by its colon. *)
Definition keyText (name : string) : string :=
  String quoteChar (name +:+ String quoteChar ":").

(** Modelled from the spec: a key followed by the text [k]. *)
Definition putKey (name : string) (k : string) : string := keyText name +:+ k.

(** Modelled from the spec: one cookie record (section 3: name, value,
    domain, path, expiry, secure flag, http-only flag) as a JSON object,
    followed by the text [k]. *)
Definition putCookie (c : Cookie) (k : string) : string :=
  String "{"
    (putKey "name" (putString (Name c)
    (String ","
    (putKey "value" (putString (Value c)
    (String ","
    (putKey "domain" (putString (Domain c)
    (String ","
    (putKey "path" (putString (Path c)
    (String ","
    (putKey "expires" (putNumber (Expires c)
    (String ","
    (putKey "secure" (putBool (Secure c)
    (String ","
    (putKey "httpOnly" (putBool (HttpOnly c)
    (String "}" k))))))))))))))))))))).

(** Modelled from the spec: reading one cookie record: the cookie and the
    text left. *)
Definition readCookie (s : string) : option (Cookie * string) :=
  s ← expect "{" s;
  s ← expect (keyText "name") s; ' (name, s) ← readString s;
  s ← expect "," s;
  s ← expect (keyText "value") s; ' (value, s) ← readString s;
  s ← expect "," s;
  s ← expect (keyText "domain") s; ' (domain, s) ← readString s;
  s ← expect "," s;
  s ← expect (keyText "path") s; ' (path, s) ← readString s;
  s ← expect "," s;
  s ← expect (keyText "expires") s; ' (expires, s) ← readNumber s;
  s ← expect "," s;
  s ← expect (keyText "secure") s; ' (secure, s) ← readBool s;
  s ← expect "," s;
  s ← expect (keyText "httpOnly") s; ' (httpOnly, s) ← readBool s;
  s ← expect "}" s;
  Some ({| Name := name; Value := value; Path := path; Domain := domain;
           Expires := expires; Secure := secure; HttpOnly := httpOnly |}, s).

(** Modelled from the spec: the records after the first, each behind its
    comma, and the closing bracket. *)
Fixpoint putTail (cookies : list Cookie) (k : string) : string :=
  match cookies with
  | [] => String "]" k
  | c :: rest => String "," (putCookie c (putTail rest k))
  end.

(** Modelled from the spec: the serialized CookieSet array of the cookie
    store (section 6), as [json.Marshal] gives it to line 275. *)
Definition marshalCookies (cookies : list Cookie) : string :=
  match cookies with
  | [] => "[]"
  | c :: rest => String "[" (putCookie c (putTail rest EmptyString))
  end.

(** Modelled from the spec: reading the records after the first up to the
    closing bracket; [fuel] bounds their number (the length of the text is
    enough). *)
Fixpoint readTail (fuel : nat) (s : string) : option (list Cookie * string) :=
  match s with
  | EmptyString => None
  | String c rest =>
      if Ascii.eqb c "]" then Some ([], rest)
      else if Ascii.eqb c "," then
        match fuel with
        | O => None
        | S fuel' =>
            match readCookie rest with
            | Some (cookie, s') =>
                match readTail fuel' s' with
                | Some (cookies, k) => Some (cookie :: cookies, k)
                | None => None
                end
            | None => None
            end
        end
      else None
  end.

(** Modelled from the spec: reading the serialized CookieSet array back, as
    [json.Unmarshal] does at line 114; a text that is not such an array is
    an error. *)
Definition unmarshalCookies (data : string) : error + list Cookie :=
  if String.eqb data "null" || String.eqb data "[]" then inr []
  else
    match expect "[" data with
    | None => inl "json: cannot unmarshal into a cookie array"
    | Some s =>
        match readCookie s with
        | None => inl "json: invalid cookie record"
        | Some (cookie, s') =>
            match readTail (String.length data) s' with
            | Some (cookies, EmptyString) => inr (cookie :: cookies)
            | Some (_, String _ _) =>
                inl "invalid character after top-level value"
            | None => inl "unexpected end of JSON input"
            end
        end
    end.

(** Modelled from the spec: a world whose cookie codec is the JSON codec
    above, everything else as in [w]. *)
Definition withJSON (w : World) : World :=
  {| w_seed := w_seed w;
     w_do := w_do w;
     w_evaluate := w_evaluate w;
     w_cookies := w_cookies w;
     w_outerHTML := w_outerHTML w;
     w_marshalCookies := λ cookies, inr (marshalCookies cookies);
     w_unmarshalCookies := unmarshalCookies;
     w_marshalMapping := w_marshalMapping w;
     w_writeFile := w_writeFile w |}.

(** ** The run up to the acquisition

    Lines 172-227 of [main]: selection, the reachability probe and the
    replacement, as [main] above does them.  [inl]: the run ended there;
    [inr]: the account, the proxy in use, the mapping and the browser side
    with which the acquisition starts. *)
Definition selectAndProbe (fuel : nat) (w : World) (accounts : list Account)
    (proxies : list Proxy) (mapping : gmap string Proxy)
  : (Outcome * gmap string Proxy * Browser)
    + (Account * Proxy * gmap string Proxy * Browser) :=
  let b0 := {| trace := []; chan := None |} in
  match selectRandomAccountAndProxy (w_seed w) accounts proxies mapping with
  | Panic m => inl (Panicked m, mapping, b0)
  | Ok (account, proxy, mapping1, g) =>
      match probeAndReplace fuel w proxies proxy account mapping1 g
              (configure proxy b0) with
      | (Abort o, b1) => inl (o, mapping1, b1)
      | (Return (proxy', mapping2, _, b2), _) =>
          inr (account, proxy', mapping2, b2)
      end
  end.
(** * Properties *)

(** ** Drawing from a pool *)

Section RandomElement.
Context {A : Type}.
Implicit Types (xs : list A) (g : Rng).

Lemma randomElement_nil g :
  randomElement (@nil A) g = Panic InvalidArgumentToIntn.
Proof. reflexivity. Qed.

Lemma randomElement_draw xs g :
  xs ≠ [] →
  ∃ x, xs !! (g 0 `mod` length xs) = Some x ∧
       randomElement xs g = Ok (x, fun i => g (S i)).
Proof.
  intros Hne. unfold randomElement, Intn.
  destruct xs as [|x0 xs']; [done|].
  cbn [length].
  destruct (lookup_lt_is_Some_2 (x0 :: xs') (g 0 `mod` S (length xs')))
    as [x Hx].
  { cbn [length]. apply Nat.mod_upper_bound. lia. }
  exists x. split; [exact Hx|]. by rewrite Hx.
Qed.

Lemma randomElement_Ok xs g x g' :
  randomElement xs g = Ok (x, g') →
  x ∈ xs ∧ xs !! (g 0 `mod` length xs) = Some x ∧ g' = (fun i => g (S i)).
Proof.
  intros H. destruct xs as [|x0 xs']; [done|].
  destruct (randomElement_draw (x0 :: xs') g) as (y & Hy & Hr); [done|].
  rewrite Hr in H. injection H as -> <-.
  split; [|done]. by eapply list_elem_of_lookup_2.
Qed.

Lemma randomElement_Panic xs g m :
  randomElement xs g = Panic m → xs = [].
Proof.
  intros H. destruct xs as [|x0 xs']; [done|].
  destruct (randomElement_draw (x0 :: xs') g) as (y & _ & Hr); [done|].
  congruence.
Qed.
End RandomElement.

(** ** selectRandomAccountAndProxy *)

Section Select.
Implicit Types (accounts : list Account) (proxies : list Proxy)
  (mapping : gmap string Proxy) (seeded : Rng).

(** What the function returns, by cases on the mapping entry of the drawn
    account. *)
Lemma select_inv seeded accounts proxies mapping account proxy mapping' g' :
  selectRandomAccountAndProxy seeded accounts proxies mapping
    = Ok (account, proxy, mapping', g') →
  account ∈ accounts ∧
  ((mapping !! Email account = Some proxy ∧ mapping' = mapping) ∨
   (mapping !! Email account = None ∧ proxy ∈ proxies ∧
    mapping' = <[Email account := proxy]> mapping)).
Proof.
  unfold selectRandomAccountAndProxy.
  destruct (randomElement accounts seeded) as [[a g1]|] eqn:Ha; [|done].
  apply randomElement_Ok in Ha as (Hin & _ & _).
  destruct (mapping !! Email a) as [p|] eqn:Hm.
  - intros [= <- <- <- <-]. split; [done|]. by left.
  - destruct (randomElement proxies g1) as [[p g2]|] eqn:Hp; [|done].
    apply randomElement_Ok in Hp as (Hpin & _ & _).
    intros [= <- <- <- <-]. split; [done|]. by right.
Qed.

Lemma select_total seeded accounts proxies mapping :
  accounts ≠ [] → proxies ≠ [] →
  ∃ r, selectRandomAccountAndProxy seeded accounts proxies mapping = Ok r.
Proof.
  intros Ha Hp. unfold selectRandomAccountAndProxy.
  destruct (randomElement_draw accounts seeded Ha) as (a & _ & ->).
  destruct (mapping !! Email a); [by eexists|].
  destruct (randomElement_draw proxies (fun i => seeded (S i)) Hp)
    as (p & _ & ->).
  by eexists.
Qed.
End Select.

(** C6. For non-empty account and proxy pools and any mapping, the function
    returns; the account returned is an element of the account pool; the
    proxy returned is the mapping's entry for that account or an element of
    the proxy pool; and when the account had no entry, the proxy returned is
    the entry the mapping holds for it on return. *)
Theorem select_returns_pool_members
    (seeded : Rng) (accounts : list Account) (proxies : list Proxy)
    (mapping : gmap string Proxy) :
  accounts ≠ [] → proxies ≠ [] →
  ∃ account proxy mapping' g',
    selectRandomAccountAndProxy seeded accounts proxies mapping
      = Ok (account, proxy, mapping', g') ∧
    account ∈ accounts ∧
    (mapping !! Email account = Some proxy ∨ proxy ∈ proxies) ∧
    (mapping !! Email account = None →
       mapping' !! Email account = Some proxy).
Proof.
  intros Ha Hp.
  destruct (select_total seeded accounts proxies mapping Ha Hp)
    as ([[[a p] m'] g'] & Hsel).
  exists a, p, m', g'. split; [exact Hsel|].
  apply select_inv in Hsel as (Hin & [[Hm ->]|(Hm & Hpin & ->)]).
  - split; [done|]. split; [by left|]. congruence.
  - split; [done|]. split; [by right|]. intros _. apply lookup_insert_eq.
Qed.

Lemma select_returns_pool_members_witness :
  ∃ account proxy mapping' g',
    selectRandomAccountAndProxy Sample.counting
      [Sample.alice; Sample.bob] [Sample.proxyA; Sample.proxyB] ∅
      = Ok (account, proxy, mapping', g') ∧
    account ∈ [Sample.alice; Sample.bob] ∧
    ((∅ : gmap string Proxy) !! Email account = Some proxy ∨
     proxy ∈ [Sample.proxyA; Sample.proxyB]) ∧
    ((∅ : gmap string Proxy) !! Email account = None →
       mapping' !! Email account = Some proxy).
Proof.
  apply (select_returns_pool_members Sample.counting
           [Sample.alice; Sample.bob] [Sample.proxyA; Sample.proxyB] ∅);
    discriminate.
Defined.

(** C7. Sticky affinity: when the function is called twice on the same map
    object (the second call sees the map as the first call left it, nothing
    else having written to it) and both calls draw an account with the same
    e-mail, both return the same proxy. *)
Theorem select_twice_same_proxy
    (seeded1 seeded2 : Rng) (accounts : list Account) (proxies : list Proxy)
    (mapping mapping1 mapping2 : gmap string Proxy)
    (account1 account2 : Account) (proxy1 proxy2 : Proxy) (g1 g2 : Rng) :
  selectRandomAccountAndProxy seeded1 accounts proxies mapping
    = Ok (account1, proxy1, mapping1, g1) →
  selectRandomAccountAndProxy seeded2 accounts proxies mapping1
    = Ok (account2, proxy2, mapping2, g2) →
  Email account1 = Email account2 →
  proxy2 = proxy1 ∧ mapping2 = mapping1.
Proof.
  intros H1 H2 Heq.
  assert (mapping1 !! Email account1 = Some proxy1) as Hm1.
  { apply select_inv in H1 as (_ & [[Hm ->]|(_ & _ & ->)]); [done|].
    apply lookup_insert_eq. }
  apply select_inv in H2 as (_ & [[Hm ->]|(Hm & _)]);
    rewrite <- Heq in Hm; [|congruence].
  split; [congruence|done].
Qed.

Lemma select_twice_same_proxy_witness :
  Sample.proxyA = Sample.proxyA ∧
  (<[Email Sample.alice := Sample.proxyA]> ∅ : gmap string Proxy)
    = <[Email Sample.alice := Sample.proxyA]> ∅.
Proof.
  apply (select_twice_same_proxy (Sample.always 0) (Sample.always 2)
           [Sample.alice; Sample.bob] [Sample.proxyA; Sample.proxyB]
           ∅ _ _ Sample.alice Sample.alice _ _
           (fun i => Sample.always 0 (S (S i)))
           (fun i => Sample.always 2 (S i)));
    reflexivity.
Defined.

(** C10. The function changes at most the mapping entry of the account it
    returns: every entry under another key is as before, and when that
    account already had an entry the whole mapping is as before. *)
Theorem select_frame
    (seeded : Rng) (accounts : list Account) (proxies : list Proxy)
    (mapping mapping' : gmap string Proxy)
    (account : Account) (proxy : Proxy) (g' : Rng) :
  selectRandomAccountAndProxy seeded accounts proxies mapping
    = Ok (account, proxy, mapping', g') →
  (∀ k : string, k ≠ Email account → mapping' !! k = mapping !! k) ∧
  (is_Some (mapping !! Email account) → mapping' = mapping).
Proof.
  intros Hsel.
  apply select_inv in Hsel as (_ & [[Hm ->]|(Hm & _ & ->)]).
  - done.
  - split.
    + intros k Hk. by rewrite lookup_insert_ne.
    + rewrite Hm. by intros [? ?].
Qed.

Lemma select_frame_witness :
  (∀ k : string, k ≠ Email Sample.bob →
     (<[Email Sample.bob := Sample.proxyB]>
        ({[ Email Sample.alice := Sample.proxyA ]} : gmap string Proxy)) !! k
     = ({[ Email Sample.alice := Sample.proxyA ]} : gmap string Proxy) !! k) ∧
  (is_Some (({[ Email Sample.alice := Sample.proxyA ]} : gmap string Proxy)
              !! Email Sample.bob) →
   <[Email Sample.bob := Sample.proxyB]>
     ({[ Email Sample.alice := Sample.proxyA ]} : gmap string Proxy)
   = {[ Email Sample.alice := Sample.proxyA ]}).
Proof.
  apply (select_frame (Sample.always 1)
           [Sample.alice; Sample.bob] [Sample.proxyA; Sample.proxyB]
           {[ Email Sample.alice := Sample.proxyA ]} _
           Sample.bob Sample.proxyB (fun i => Sample.always 1 (S (S i))));
    reflexivity.
Defined.





(** ** Replacing a failed proxy *)

Lemma sameProxy_true (p q : Proxy) : sameProxy p q = true ↔ p = q.
Proof.
  unfold sameProxy. rewrite andb_true_iff, !String.eqb_eq.
  destruct p, q; cbn. split; [intros [-> ->]; done | by intros [= -> ->]].
Qed.

Lemma sameProxy_false (p q : Proxy) :
  sameProxy p q = false ↔ Server p ≠ Server q ∨ Port p ≠ Port q.
Proof.
  unfold sameProxy. rewrite andb_false_iff, !String.eqb_neq. done.
Qed.

Section Redraw.
Variables (proxies : list Proxy) (proxy : Proxy).

(** On leaving the loop the candidate is not the failed proxy; it is the
    candidate the loop was entered with or an element of the pool. *)
Lemma redraw_Return fuel newProxy g newProxy' g' :
  redraw fuel proxies proxy newProxy g = Return (newProxy', g') →
  sameProxy newProxy' proxy = false ∧
  (newProxy' = newProxy ∨ newProxy' ∈ proxies).
Proof.
  revert newProxy g.
  induction fuel as [|fuel IH]; intros newProxy g; cbn;
    destruct (sameProxy newProxy proxy) eqn:Hs; try done;
    try (intros [= <- <-]; split; [done | by left]).
  destruct (randomElement proxies g) as [[np g1]|] eqn:Hd; [|done].
  intros Hr. apply IH in Hr as [Hne [->|Hin]]; (split; [done|right]);
    [|done].
  by apply randomElement_Ok in Hd as (? & _).
Qed.

(** A pool made only of the failed proxy keeps the loop going, whatever
    the number of iterations followed. *)
Lemma redraw_spins fuel newProxy g :
  proxies ≠ [] → Forall (λ q, q = proxy) proxies →
  sameProxy newProxy proxy = true →
  redraw fuel proxies proxy newProxy g = Abort Spinning.
Proof.
  intros Hne Hall. revert newProxy g.
  induction fuel as [|fuel IH]; intros newProxy g Hs; cbn; rewrite Hs;
    [done|].
  destruct (randomElement_draw proxies g Hne) as (q & Hq & ->).
  apply IH. apply sameProxy_true.
  rewrite Forall_forall in Hall. apply Hall.
  by eapply list_elem_of_lookup_2.
Qed.

(** If the draw number [k] lands on another proxy, [k + 1] iterations are
    enough to leave the loop. *)
Lemma redraw_leaves k newProxy g q :
  proxies !! (g k `mod` length proxies) = Some q →
  sameProxy q proxy = false →
  ∃ r, redraw (S k) proxies proxy newProxy g = Return r.
Proof.
  revert newProxy g.
  induction k as [|k IH]; intros newProxy g Hq Hs.
  - cbn. destruct (sameProxy newProxy proxy); [|by eexists].
    destruct (randomElement_draw proxies g) as (q' & Hq' & ->).
    { intros ->. by rewrite lookup_nil in Hq. }
    assert (q' = q) as -> by congruence.
    rewrite Hs. by eexists.
  - cbn [redraw]. destruct (sameProxy newProxy proxy); [|by eexists].
    destruct (randomElement_draw proxies g) as (q' & _ & ->).
    { intros ->. by rewrite lookup_nil in Hq. }
    by apply IH.
Qed.

(** More fuel does not change a result already reached. *)
Lemma redraw_fuel_mono fuel newProxy g r :
  redraw fuel proxies proxy newProxy g = Return r →
  redraw (S fuel) proxies proxy newProxy g = Return r.
Proof.
  revert newProxy g.
  induction fuel as [|fuel IH]; intros newProxy g.
  - cbn. by destruct (sameProxy newProxy proxy).
  - intros H. cbn [redraw] in *.
    destruct (sameProxy newProxy proxy); [|done].
    destruct (randomElement proxies g) as [[np g1]|]; [|done].
    by apply IH.
Qed.
End Redraw.

Lemma replaceProxy_spins fuel proxies proxy account mapping g b :
  proxies ≠ [] → Forall (λ q, q = proxy) proxies →
  replaceProxy fuel proxies proxy account mapping g b = Abort Spinning.
Proof.
  intros Hne Hall. unfold replaceProxy.
  destruct (randomElement_draw proxies g Hne) as (q & Hq & ->).
  rewrite redraw_spins; [done..|].
  apply sameProxy_true. rewrite Forall_forall in Hall. apply Hall.
  by eapply list_elem_of_lookup_2.
Qed.

(** The replacement block returns as soon as some draw of the random source
    lands on a proxy other than the failed one. *)
Lemma replaceProxy_returns
    (proxies : list Proxy) (proxy : Proxy) (account : Account)
    (mapping : gmap string Proxy) (g : Rng) (b : Browser) (k : nat) (q : Proxy) :
  proxies !! (g k `mod` length proxies) = Some q → q ≠ proxy →
  ∃ r, replaceProxy k proxies proxy account mapping g b = Return r.
Proof.
  intros Hq Hne. unfold replaceProxy.
  assert (sameProxy q proxy = false) as Hs.
  { destruct (sameProxy q proxy) eqn:E; [|done].
    by apply sameProxy_true in E. }
  destruct (randomElement_draw proxies g) as (q0 & Hq0 & ->).
  { intros ->. by rewrite lookup_nil in Hq. }
  destruct k as [|k].
  - assert (q0 = q) as -> by congruence.
    cbn. rewrite Hs. by eexists.
  - destruct (redraw_leaves proxies proxy k q0 (fun i => g (S i)) q Hq Hs)
      as ([np g2] & ->).
    by eexists.
Qed.

(** C5. For a pool of at least two proxies one of which is not the failed
    proxy: whenever the replacement block returns, the proxy it chose
    differs from the failed one in [Server] or in [Port], is an element of
    the pool, and is the mapping's entry for the account; and the pool has a
    position such that the block returns as soon as some draw of the random
    source lands on it. *)
Theorem replacement_differs_and_is_recorded
    (proxies : list Proxy) (proxy : Proxy) (account : Account)
    (mapping : gmap string Proxy) (g : Rng) (b : Browser) :
  (2 ≤ length proxies)%nat →
  (∃ q, q ∈ proxies ∧ q ≠ proxy) →
  (∀ fuel newProxy mapping' g' b',
     replaceProxy fuel proxies proxy account mapping g b
       = Return (newProxy, mapping', g', b') →
     (Server newProxy ≠ Server proxy ∨ Port newProxy ≠ Port proxy) ∧
     newProxy ∈ proxies ∧
     mapping' = <[Email account := newProxy]> mapping ∧
     mapping' !! Email account = Some newProxy) ∧
  (∃ i, (i < length proxies)%nat ∧
     ∀ k, g k `mod` length proxies = i →
          ∃ r, replaceProxy k proxies proxy account mapping g b = Return r).
Proof.
  intros _ (q & Hin & Hne). split.
  - intros fuel newProxy mapping' g' b'. unfold replaceProxy.
    destruct (randomElement proxies g) as [[np g1]|] eqn:Hd; [|done].
    destruct (redraw fuel proxies proxy np g1) as [[np' g2]|] eqn:Hr; [|done].
    intros [= <- <- <- <-].
    apply redraw_Return in Hr as [Hs Hnp'].
    apply randomElement_Ok in Hd as (Hnp & _).
    split; [by apply sameProxy_false|].
    split; [by destruct Hnp' as [->|?]|].
    split; [done|]. apply lookup_insert_eq.
  - apply list_elem_of_lookup_1 in Hin as (i & Hi).
    exists i. split; [by eapply lookup_lt_Some|].
    intros k Hk. apply (replaceProxy_returns _ _ _ _ _ _ k q); [|done].
    by rewrite Hk.
Qed.

Lemma replacement_differs_and_is_recorded_witness :
  (∀ fuel newProxy mapping' g' b',
     replaceProxy fuel [Sample.proxyA; Sample.proxyB] Sample.proxyA
       Sample.alice ∅ Sample.counting Sample.fresh
       = Return (newProxy, mapping', g', b') →
     (Server newProxy ≠ Server Sample.proxyA ∨
      Port newProxy ≠ Port Sample.proxyA) ∧
     newProxy ∈ [Sample.proxyA; Sample.proxyB] ∧
     mapping' = <[Email Sample.alice := newProxy]> ∅ ∧
     mapping' !! Email Sample.alice = Some newProxy) ∧
  (∃ i, (i < length [Sample.proxyA; Sample.proxyB])%nat ∧
     ∀ k, Sample.counting k `mod` length [Sample.proxyA; Sample.proxyB] = i →
          ∃ r, replaceProxy k [Sample.proxyA; Sample.proxyB] Sample.proxyA
                 Sample.alice ∅ Sample.counting Sample.fresh = Return r).
Proof.
  apply (replacement_differs_and_is_recorded
           [Sample.proxyA; Sample.proxyB] Sample.proxyA Sample.alice ∅
           Sample.counting Sample.fresh).
  - simpl. lia.
  - exists Sample.proxyB. split; [|discriminate].
    apply list_elem_of_In. simpl. tauto.
Defined.

(** The replacement on the sample pool: the first draw is the failed proxy
    again, the second one is kept. *)
Example replaceProxy_sample :
  replaceProxy 1 [Sample.proxyA; Sample.proxyB] Sample.proxyA
    Sample.alice ∅ Sample.counting Sample.fresh
  = Return (Sample.proxyB, {[ Email Sample.alice := Sample.proxyB ]},
            (fun i => Sample.counting (S (S i))),
            configure Sample.proxyB Sample.fresh).
Proof. reflexivity. Qed.

Lemma main_sole_proxy_spins
    (fuel : nat) (w : World) (accounts : list Account) (proxies : list Proxy)
    (mapping : gmap string Proxy) (fs : gmap string string)
    (account : Account) (proxy : Proxy) (mapping1 : gmap string Proxy)
    (g : Rng) (e : error) (b1 : Browser) :
  selectRandomAccountAndProxy (w_seed w) accounts proxies mapping
    = Ok (account, proxy, mapping1, g) →
  Run [ Navigate w "https://www.amazon.com"; Sleep w 2 ]
      (configure proxy {| trace := []; chan := None |}) = (Err e, b1) →
  proxies ≠ [] → Forall (λ q, q = proxy) proxies →
  main fuel w accounts proxies mapping fs
  = (Spinning, {| mapping_of := mapping1; files := fs; browser := b1 |}).
Proof.
  intros Hsel Hrun Hne Hall. unfold main, probeAndReplace.
  rewrite Hsel, Hrun, replaceProxy_spins; done.
Qed.

(** C2, evaluated. The pool holds one proxy, it is assigned to the account
    and the reachability probe through it fails: however many iterations of
    the loop of lines 209-211 are followed, the run is still inside it.  No
    error is produced, and nothing is written. *)
Theorem sole_proxy_failover_never_returns (fuel : nat) :
  main fuel (Sample.world (Sample.always 0) Sample.proxyDown true)
       [Sample.alice] [Sample.proxyA] ∅ Sample.aliceFile
  = (Spinning,
     {| mapping_of := {[ Email Sample.alice := Sample.proxyA ]};
        files := Sample.aliceFile;
        browser := {| trace := [ CNavigate "https://www.amazon.com";
                                 CConfigure Sample.proxyA ];
                      chan := None |} |}).
Proof.
  eapply main_sole_proxy_spins; [reflexivity | reflexivity | done |].
  by repeat constructor.
Qed.

(** ** Failure paths and the files *)

(** C4. A run that ends in a failed outcome (a panic or a replacement loop
    that never finishes, the early return after an error on the cookie path,
    the early return after a failed login) leaves the files as they were:
    neither the cookie file nor the mapping file is written. *)
Theorem failed_run_writes_nothing
    (fuel : nat) (w : World) (accounts : list Account) (proxies : list Proxy)
    (mapping : gmap string Proxy) (fs : gmap string string)
    (o : Outcome) (m : Machine) :
  main fuel w accounts proxies mapping fs = (o, m) →
  Failed o →
  files m = fs.
Proof.
  unfold main. intros Hmain Hf.
  destruct (selectRandomAccountAndProxy _ _ _ _) as [[[[a p] m1] g]|pm];
    [|by injection Hmain as <- <-].
  destruct (probeAndReplace _ _ _ _ _ _ _ _) as [[[[[p' m2] g'] b2]|o'] b1];
    [|by injection Hmain as <- <-].
  destruct (acquire w a fs b2) as [[o'|] b3];
    [by injection Hmain as <- <-|].
  unfold saveResults in Hmain.
  destruct (receive b3) as [[cookies b4]|];
    [|by injection Hmain as <- <-].
  destruct (w_marshalCookies w cookies);
    [injection Hmain as <- <-; by destruct Hf|].
  destruct (writeFile _ _ _ _) as [[e|] fs'];
    [injection Hmain as <- <-; by destruct Hf|].
  destruct (saveMapping _ _ _ _) as [[e|] fs''];
    injection Hmain as <- <-; by destruct Hf.
Qed.

Lemma failed_run_writes_nothing_witness :
  files (main 0 (Sample.world (Sample.always 0) Sample.signInStuck false)
              [Sample.alice] [Sample.proxyA] ∅ Sample.aliceFile).2
  = Sample.aliceFile.
Proof.
  apply (failed_run_writes_nothing 0
           (Sample.world (Sample.always 0) Sample.signInStuck false)
           [Sample.alice] [Sample.proxyA] ∅ Sample.aliceFile
           (ErrorUsingCookies "context deadline exceeded")).
  - vm_compute. reflexivity.
  - exact I.
Defined.

(** ** Sequences of driver actions *)

Lemma Run_app (xs ys : list Task) (b : Browser) :
  Run (xs ++ ys) b
  = match Run xs b with
    | (Nil, b') => Run ys b'
    | other => other
    end.
Proof.
  revert b. induction xs as [|x xs IH]; intros b; cbn; [done|].
  destruct (x b) as [[|e|] b']; [apply IH|done..].
Qed.

Section Preserves.
Context {X : Type} (f : Browser → X).

Lemma Run_preserves (ts : list Task) :
  Forall (preserves f) ts → preserves f (Run ts).
Proof.
  induction 1 as [|t ts Ht _ IH]; intros b; cbn; [done|].
  specialize (Ht b).
  destruct (t b) as [[|e|] b']; cbn in *; [|done..].
  by rewrite IH.
Qed.

Lemma injectCookies_preserves (w : World) (cookies : list Cookie) :
  (∀ c, preserves f (SetCookie w c)) →
  preserves f (injectCookies w cookies).
Proof.
  intros Hset. induction cookies as [|c rest IH]; intros b; [done|].
  cbn [injectCookies]. specialize (Hset c b).
  destruct (SetCookie w c b) as [[|e|] b']; cbn [snd] in *; [|done..].
  by rewrite IH.
Qed.
End Preserves.

(** The driver calls do not touch the channel. *)
Lemma issue_chan (w : World) (c : Call) : preserves chan (issue w c).
Proof. done. Qed.

(** Only [OuterHTML] asks for the page markup. *)
Lemma issue_capture (w : World) (c : Call) :
  isCapture c = false → preserves capturedMarkup (issue w c).
Proof. intros Hc b. unfold capturedMarkup. cbn. by rewrite Hc. Qed.

Lemma send_capture (cookies : list Cookie) :
  preserves capturedMarkup (send cookies).
Proof. intros b. unfold send. by destruct (chan b). Qed.

Lemma performLogin_capture (w : World) (account : Account) :
  preserves capturedMarkup (performLogin w account).
Proof.
  apply Run_preserves.
  repeat (apply Forall_cons; split; [by apply issue_capture|]).
  apply Forall_cons. split; [|done].
  intros b. unfold captureCookies, Cookies.
  pose proof (issue_capture w CCookies eq_refl b) as Hi.
  destruct (issue w CCookies b) as [[|e|] b']; cbn in *; [|done..].
  by rewrite send_capture.
Qed.

(** On the path through stored cookies the program never asks the driver
    for the page markup, whatever goes wrong. *)
Lemma acquire_stored_never_captures
    (w : World) (account : Account) (fs : gmap string string) (b : Browser)
    (cookies : list Cookie) :
  loadCookies w fs (Email account) = inr cookies →
  capturedMarkup (acquire w account fs b).2 = capturedMarkup b.
Proof.
  intros Hload. unfold acquire. rewrite Hload.
  assert (preserves capturedMarkup
            (Run [ injectCookies w cookies;
                   Navigate w "https://www.amazon.com";
                   Sleep w 2;
                   validateOrLogin w account cookies ])) as Hp.
  { apply Run_preserves.
    apply Forall_cons. split.
    { apply injectCookies_preserves. intros c. by apply issue_capture. }
    do 2 (apply Forall_cons; split; [by apply issue_capture|]).
    apply Forall_cons. split; [|done].
    intros b0. unfold validateOrLogin, Evaluate.
    pose proof (issue_capture w (CEvaluate probeScript) eq_refl b0) as Hi.
    destruct (issue w (CEvaluate probeScript) b0) as [st b'];
      cbn [fst snd] in *.
    destruct st; [destruct (w_evaluate _ _ _)|..];
      rewrite ?send_capture, ?performLogin_capture; done. }
  specialize (Hp b).
  by destruct (Run _ b) as [[|e|] b'].
Qed.

(** Without stored cookies a failed login is followed by the request for
    the page markup. *)
Lemma acquire_direct_failure_captures
    (w : World) (account : Account) (fs : gmap string string) (b b' : Browser)
    (e0 e : error) :
  loadCookies w fs (Email account) = inl e0 →
  performLogin w account b = (Err e, b') →
  ∃ html st,
    acquire w account fs b
    = (Some (LoginFailed e html),
       {| trace := COuterHTML "html" :: trace b'; chan := chan b' |}) ∧
    OuterHTML w "html" b' = (st, html, {| trace := COuterHTML "html" :: trace b';
                                          chan := chan b' |}).
Proof.
  intros Hload Hlogin. unfold acquire. rewrite Hload, Hlogin.
  unfold OuterHTML, issue. by eexists _, _.
Qed.

(** C9, evaluated. Stored cookies are found and injected, the validity probe
    answers [false], and the login that follows fails at its third step:
    the run returns at lines 257-260 with the error, and the driver was
    never asked for the page markup.  The same failure on a run without
    stored cookies (lines 264-270) does ask for it. *)
Theorem fallback_login_failure_skips_capture :
  let w := Sample.world (Sample.always 0) Sample.signInStuck false in
  let viaCookies :=
    main 0 w [Sample.alice] [Sample.proxyA] ∅ Sample.aliceFile in
  let direct := main 0 w [Sample.alice] [Sample.proxyA] ∅ ∅ in
  viaCookies.1 = ErrorUsingCookies "context deadline exceeded" ∧
  capturedMarkup (browser viaCookies.2) = false ∧
  direct.1 = LoginFailed "context deadline exceeded" "<html></html>" ∧
  capturedMarkup (browser direct.2) = true.
Proof. vm_compute. done. Qed.

(** ** Stored cookies that pass the validity probe *)

(** C1, as the program behaves. When the stored cookies are loaded,
    injected, the home page is loaded and the validity probe answers [true]
    without error, the cookie set handed on through the channel is the
    stored set exactly as loaded; the probe is the last driver call, so the
    driver's cookies are not read. *)
Theorem valid_cookies_emitted_as_stored
    (w : World) (account : Account) (fs : gmap string string)
    (b b1 : Browser) (cookies : list Cookie) :
  loadCookies w fs (Email account) = inr cookies →
  chan b = None →
  Run [ injectCookies w cookies;
        Navigate w "https://www.amazon.com";
        Sleep w 2 ] b = (Nil, b1) →
  w_do w (trace b1) (CEvaluate probeScript) = None →
  w_evaluate w (trace b1) probeScript = true →
  acquire w account fs b
  = (None, {| trace := CEvaluate probeScript :: trace b1;
              chan := Some cookies |}).
Proof.
  intros Hload Hchan Hrun Hdo Hev. unfold acquire. rewrite Hload.
  assert (chan b1 = None) as Hchan1.
  { rewrite <- Hchan.
    change b1 with (Nil, b1).2. rewrite <- Hrun.
    apply (Run_preserves chan).
    apply Forall_cons. split.
    { apply injectCookies_preserves. intros c. apply issue_chan. }
    do 2 (apply Forall_cons; split; [apply issue_chan|]). done. }
  change [ injectCookies w cookies; Navigate w "https://www.amazon.com";
           Sleep w 2; validateOrLogin w account cookies ]
    with ([ injectCookies w cookies; Navigate w "https://www.amazon.com";
            Sleep w 2 ] ++ [ validateOrLogin w account cookies ])%list.
  rewrite Run_app, Hrun.
  cbn [Run]. unfold validateOrLogin, Evaluate, issue.
  rewrite Hdo, Hev. unfold send. cbn [chan trace]. by rewrite Hchan1.
Qed.

Lemma valid_cookies_emitted_as_stored_witness :
  acquire (Sample.world (Sample.always 0) Sample.noFailure true)
          Sample.alice Sample.aliceFile Sample.fresh
  = (None,
     {| trace := [ CEvaluate probeScript; CSleep 2;
                   CNavigate "https://www.amazon.com";
                   CSetCookie Sample.stored ];
        chan := Some [Sample.stored] |}).
Proof.
  apply (valid_cookies_emitted_as_stored
           (Sample.world (Sample.always 0) Sample.noFailure true)
           Sample.alice Sample.aliceFile Sample.fresh
           {| trace := [ CSleep 2; CNavigate "https://www.amazon.com";
                         CSetCookie Sample.stored ];
              chan := None |}
           [Sample.stored]);
    reflexivity.
Defined.

(** C1, as stated, fails: the stored cookie passes the probe while the
    driver's jar holds a rotated one; what the program hands on is the
    stored cookie, not the driver's, and the driver is never asked for its
    cookies. *)
Lemma valid_cookies_not_reread :
  let w := Sample.world (Sample.always 0) Sample.noFailure true in
  let r := acquire w Sample.alice Sample.aliceFile Sample.fresh in
  r.1 = None ∧
  chan r.2 = Some [Sample.stored] ∧
  w_cookies w (trace r.2) = [Sample.rotated] ∧
  chan r.2 ≠ Some (w_cookies w (trace r.2)) ∧
  existsb isCookieRead (trace r.2) = false.
Proof. vm_compute. repeat split; discriminate. Qed.

(** ** Writing the cookies and reading them back *)

Lemma cookieFileName_not_mapping (email : string) :
  cookieFileName email ≠ "account_proxy_mapping.json".
Proof. unfold cookieFileName. cbn. discriminate. Qed.

(** The name depends on the e-mail alone, and both sides compute it with
    this one function. *)
Example cookieFileName_sample :
  cookieFileName "alice@example.com" = "cookies_alice_example.com.json".
Proof. reflexivity. Qed.

(** ** The cookie codec reads back what it writes *)

Lemma readEscaped_escapeChar (c : ascii) (text : string) :
  readEscaped (escapeChar c text)
  = match readEscaped text with
    | Some (body, k) => Some (String c body, k)
    | None => None
    end.
Proof. destruct c as [[] [] [] [] [] [] [] []]; reflexivity. Qed.

Lemma readEscaped_put (s k : string) :
  readEscaped (putEscaped s (String quoteChar k)) = Some (s, k).
Proof.
  induction s as [|c s IH]; [done|].
  cbn [putEscaped]. by rewrite readEscaped_escapeChar, IH.
Qed.

Lemma readString_put (s k : string) : readString (putString s k) = Some (s, k).
Proof. apply readEscaped_put. Qed.

Lemma expect_put (lit k : string) : expect lit (lit +:+ k) = Some k.
Proof.
  induction lit as [|c lit IH]; [done|].
  simpl. by rewrite Ascii.eqb_refl.
Qed.

Lemma expect_char (c : ascii) (k : string) :
  expect (String c EmptyString) (String c k) = Some k.
Proof. apply (expect_put (String c EmptyString) k). Qed.

Lemma readBool_put (b : bool) (k : string) : readBool (putBool b k) = Some (b, k).
Proof. by destruct b. Qed.

Lemma spanNumber_digits (d : Decimal.uint) (c : ascii) (k : string) :
  numberChar c = false →
  spanNumber (DecimalString.NilEmpty.string_of_uint d +:+ String c k)
  = (DecimalString.NilEmpty.string_of_uint d, String c k).
Proof.
  intros Hc. induction d; simpl; rewrite ?IHd; [by rewrite Hc|done..].
Qed.

Lemma string_of_uint_nonempty (p : positive) :
  DecimalString.NilEmpty.string_of_uint (Pos.to_uint p) ≠ EmptyString.
Proof.
  pose proof (DecimalPos.Unsigned.to_uint_nonnil p) as H.
  by destruct (Pos.to_uint p).
Qed.

Lemma string_of_uint_head (d : Decimal.uint) :
  match DecimalString.NilEmpty.string_of_uint d with
  | String a _ => Ascii.eqb a "-" = false
  | EmptyString => True
  end.
Proof. by destruct d. Qed.

Lemma readNumber_put (z : Z) (c : ascii) (k : string) :
  numberChar c = false →
  readNumber (putNumber z (String c k)) = Some (z, String c k).
Proof.
  intros Hc. unfold readNumber, putNumber.
  assert (spanNumber
            (DecimalString.NilEmpty.string_of_int (Z.to_int z) +:+ String c k)
          = (DecimalString.NilEmpty.string_of_int (Z.to_int z), String c k))
    as ->.
  { destruct (Z.to_int z) as [d|d]; simpl.
    - by apply spanNumber_digits.
    - by rewrite spanNumber_digits. }
  assert ((String.eqb (DecimalString.NilEmpty.string_of_int (Z.to_int z)) ""
           || String.eqb (DecimalString.NilEmpty.string_of_int (Z.to_int z)) "-")
          = false) as ->.
  { destruct z as [|p|p]; [done|..]; simpl.
    - pose proof (string_of_uint_nonempty p) as H.
      pose proof (string_of_uint_head (Pos.to_uint p)) as Hh.
      destruct (DecimalString.NilEmpty.string_of_uint (Pos.to_uint p))
        as [|a s]; [done|].
      simpl. by rewrite Hh.
    - pose proof (string_of_uint_nonempty p) as H.
      by destruct (DecimalString.NilEmpty.string_of_uint (Pos.to_uint p)). }
  by rewrite DecimalString.NilEmpty.isi, DecimalZ.of_to.
Qed.

Lemma readCookie_put (c : Cookie) (k : string) :
  readCookie (putCookie c k) = Some (c, k).
Proof.
  unfold readCookie, putCookie, putKey.
  rewrite expect_char. cbn [mbind option_bind].
  repeat (rewrite ?expect_put, ?expect_char, ?readString_put, ?readBool_put,
            ?readNumber_put by done;
          cbn [mbind option_bind]).
  by destruct c.
Qed.

Lemma readTail_comma (fuel : nat) (s : string) :
  readTail (S fuel) (String "," s)
  = match readCookie s with
    | Some (cookie, s') =>
        match readTail fuel s' with
        | Some (cookies, k) => Some (cookie :: cookies, k)
        | None => None
        end
    | None => None
    end.
Proof. reflexivity. Qed.

Lemma readTail_put (fuel : nat) (cookies : list Cookie) (k : string) :
  (length cookies ≤ fuel)%nat →
  readTail fuel (putTail cookies k) = Some (cookies, k).
Proof.
  revert fuel. induction cookies as [|c cookies IH]; intros fuel Hf.
  - by destruct fuel.
  - destruct fuel as [|fuel]; [cbn in Hf; lia|].
    cbn [putTail]. rewrite readTail_comma, readCookie_put, IH; [done|].
    cbn in Hf. lia.
Qed.

Lemma length_putEscaped (s k : string) :
  (String.length k ≤ String.length (putEscaped s k))%nat.
Proof.
  induction s as [|c s IH]; [done|].
  cbn [putEscaped]. unfold escapeChar.
  destruct (needsEscape c); cbn [String.length]; lia.
Qed.

Lemma length_append_r (s k : string) :
  (String.length k ≤ String.length (s +:+ k))%nat.
Proof. induction s as [|c s IH]; simpl; [done|lia]. Qed.

Section Lengths.
Variables k text : string.
Hypothesis Hk : (String.length k ≤ String.length text)%nat.

Lemma length_String (c : ascii) :
  (String.length k ≤ String.length (String c text))%nat.
Proof. cbn [String.length]. lia. Qed.

Lemma length_putKey (name : string) :
  (String.length k ≤ String.length (putKey name text))%nat.
Proof. etrans; [exact Hk|apply length_append_r]. Qed.

Lemma length_putString (s : string) :
  (String.length k ≤ String.length (putString s text))%nat.
Proof.
  unfold putString. cbn [String.length].
  pose proof (length_putEscaped s (String quoteChar text)) as H.
  cbn [String.length] in H. lia.
Qed.

Lemma length_putNumber (z : Z) :
  (String.length k ≤ String.length (putNumber z text))%nat.
Proof. etrans; [exact Hk|apply length_append_r]. Qed.

Lemma length_putBool (b : bool) :
  (String.length k ≤ String.length (putBool b text))%nat.
Proof. etrans; [exact Hk|apply length_append_r]. Qed.
End Lengths.

Lemma length_putCookie (c : Cookie) (k : string) :
  (String.length k ≤ String.length (putCookie c k))%nat.
Proof.
  unfold putCookie.
  repeat first [ apply length_putKey | apply length_putString
               | apply length_putNumber | apply length_putBool
               | apply length_String ].
  done.
Qed.

Lemma length_putTail (cookies : list Cookie) (k : string) :
  (length cookies ≤ String.length (putTail cookies k))%nat.
Proof.
  induction cookies as [|c cookies IH]; cbn [putTail length String.length];
    [lia|].
  pose proof (length_putCookie c (putTail cookies k)). lia.
Qed.

(** Every cookie set is read back from its serialization: the same
    records in the same order, each with the same field values. *)
Lemma unmarshal_marshalCookies (cookies : list Cookie) :
  unmarshalCookies (marshalCookies cookies) = inr cookies.
Proof.
  destruct cookies as [|c cookies]; [done|].
  unfold unmarshalCookies. cbn [marshalCookies].
  set (text := putTail cookies EmptyString).
  assert ((String.eqb (String "[" (putCookie c text)) "null"
           || String.eqb (String "[" (putCookie c text)) "[]") = false) as ->
    by reflexivity.
  rewrite expect_char, readCookie_put. subst text.
  rewrite readTail_put; [done|].
  cbn [String.length].
  pose proof (length_putTail cookies EmptyString).
  pose proof (length_putCookie c (putTail cookies EmptyString)). lia.
Qed.

(** Saving and loading, for any codec that reads back this cookie set. *)
Lemma saveResults_loadCookies
    (w : World) (account : Account) (mapping : gmap string Proxy)
    (fs : gmap string string) (b b' : Browser) (cookies : list Cookie)
    (a : Account) (file : string) (m : Machine) :
  (∀ data, w_marshalCookies w cookies = inr data →
           w_unmarshalCookies w data = inr cookies) →
  receive b = Some (cookies, b') →
  saveResults w account mapping fs b = (Success a file, m) →
  a = account ∧
  file = cookieFileName (Email account) ∧
  loadCookies w (files m) (Email account) = inr cookies.
Proof.
  intros Hcodec Hrecv. unfold saveResults. rewrite Hrecv.
  destruct (w_marshalCookies w cookies) as [e|data] eqn:Hm; [done|].
  unfold writeFile.
  destruct (w_writeFile w (cookieFileName (Email account)) data)
    as [|e [partial|]]; [|done..].
  unfold saveMapping.
  destruct (w_marshalMapping w _) as [e|data2]; [done|].
  unfold writeFile.
  destruct (w_writeFile w "account_proxy_mapping.json" data2)
    as [|e [partial|]]; [|done..].
  intros [= <- <- <-]. split; [done|]. split; [done|].
  unfold loadCookies. cbn [files].
  rewrite lookup_insert_ne by (apply not_eq_sym, cookieFileName_not_mapping).
  rewrite lookup_insert_eq. by apply Hcodec.
Qed.

(** C8. With the cookie file holding the JSON array of the cookie records:
    when "Save cookies" receives a cookie set from the session acquirer and
    the run ends with the success message, the file named in the message is
    the one [loadCookies] computes from the account's e-mail, and
    [loadCookies] on the files left by the run returns that cookie set, the
    same records with the same field values. *)
Theorem saved_cookies_load_back
    (w : World) (account : Account) (mapping : gmap string Proxy)
    (fs : gmap string string) (b b' : Browser) (cookies : list Cookie)
    (a : Account) (file : string) (m : Machine) :
  receive b = Some (cookies, b') →
  saveResults (withJSON w) account mapping fs b = (Success a file, m) →
  a = account ∧
  file = cookieFileName (Email account) ∧
  loadCookies (withJSON w) (files m) (Email account) = inr cookies.
Proof.
  apply saveResults_loadCookies.
  intros data [= <-]. apply unmarshal_marshalCookies.
Qed.

Lemma saved_cookies_load_back_witness :
  Sample.alice = Sample.alice ∧
  "cookies_alice_example.com.json" = cookieFileName (Email Sample.alice) ∧
  loadCookies
    (withJSON (Sample.world (Sample.always 0) Sample.noFailure true))
    (files
       (saveResults
          (withJSON (Sample.world (Sample.always 0) Sample.noFailure true))
          Sample.alice ∅ Sample.aliceFile
          {| trace := []; chan := Some [Sample.stored; Sample.rotated] |}).2)
    (Email Sample.alice)
  = inr [Sample.stored; Sample.rotated].
Proof.
  apply (saved_cookies_load_back
           (Sample.world (Sample.always 0) Sample.noFailure true)
           Sample.alice ∅ Sample.aliceFile
           {| trace := []; chan := Some [Sample.stored; Sample.rotated] |}
           {| trace := []; chan := None |}
           [Sample.stored; Sample.rotated] Sample.alice
           "cookies_alice_example.com.json").
  - reflexivity.
  - vm_compute. reflexivity.
Defined.


(** * Further properties *)

(** ** Splitting a line at the colons *)

Section SplitFacts.
Variable sep : ascii.

Lemma Split_nonempty (s : string) : Split s sep ≠ [].
Proof.
  destruct s as [|c rest]; simpl; [done|].
  destruct (Ascii.eqb c sep); [done|]. by destruct (Split rest sep).
Qed.

Lemma Split_length (s : string) :
  length (Split s sep) = S (countChar sep s).
Proof.
  induction s as [|c rest IH]; simpl; [done|].
  destruct (Ascii.eqb c sep); simpl; [by rewrite IH|].
  destruct (Split rest sep) eqn:E; simpl in *; [done|lia].
Qed.

Lemma Split_free (s : string) :
  countChar sep s = 0 → Split s sep = [s].
Proof.
  induction s as [|c rest IH]; simpl; [done|].
  destruct (Ascii.eqb c sep); [done|]. simpl. intros H. by rewrite IH.
Qed.

Lemma Split_join (part0 rest : string) :
  countChar sep part0 = 0 →
  Split (part0 +:+ String sep rest) sep = part0 :: Split rest sep.
Proof.
  induction part0 as [|c p IH]; simpl.
  - by rewrite Ascii.eqb_refl.
  - destruct (Ascii.eqb c sep); [done|]. simpl. intros H. by rewrite IH.
Qed.

(** Exactly two pieces: the string is the first piece, the separator, the
    second piece, and neither piece holds the separator. *)
Lemma Split_two (s part0 part1 : string) :
  Split s sep = [part0; part1] ↔
  s = part0 +:+ String sep part1 ∧
  countChar sep part0 = 0 ∧ countChar sep part1 = 0.
Proof.
  split.
  - revert part0. induction s as [|c rest IH]; intros part0; simpl; [done|].
    destruct (Ascii.eqb c sep) eqn:Ec.
    + apply Ascii.eqb_eq in Ec as ->. intros [= <- Hrest].
      pose proof (Split_length rest) as Hlen. rewrite Hrest in Hlen.
      simpl in Hlen. assert (countChar sep rest = 0) as H0 by lia.
      rewrite (Split_free rest H0) in Hrest. by injection Hrest as ->.
    + destruct (Split rest sep) as [|p ps] eqn:E; [done|].
      intros [= <- ->]. destruct (IH p eq_refl) as (-> & Hp & Hq).
      simpl. by rewrite Ec.
  - intros (-> & H0 & H1). by rewrite (Split_join _ _ H0), (Split_free _ H1).
Qed.
End SplitFacts.

(** ** loadAccounts and loadProxies *)

Lemma scanAccounts_acc (lines : list string) (accounts : list Account) :
  scanAccounts lines accounts = (accounts ++ scanAccounts lines [])%list.
Proof.
  revert accounts. induction lines as [|line rest IH]; intros accounts.
  - by rewrite app_nil_r.
  - cbn [scanAccounts].
    destruct (Split line colon) as [|p0 [|p1 [|p2 ps]]]; try apply IH.
    rewrite IH, (IH ([] ++ _)%list). by rewrite <- app_assoc.
Qed.

Lemma scanAccounts_app (lines1 lines2 : list string) :
  scanAccounts (lines1 ++ lines2) []
  = (scanAccounts lines1 [] ++ scanAccounts lines2 [])%list.
Proof.
  induction lines1 as [|line rest IH]; [done|].
  cbn [scanAccounts app].
  destruct (Split line colon) as [|p0 [|p1 [|p2 ps]]]; try apply IH.
  rewrite scanAccounts_acc, (scanAccounts_acc rest (_ :: _)), IH.
  done.
Qed.

(** One line: an account when the line has exactly one colon, nothing
    otherwise. *)
Lemma scanAccounts_line (line : string) :
  (countChar colon line = 1 ∧
   ∃ part0 part1,
     line = joinColon part0 part1 ∧
     countChar colon part0 = 0 ∧ countChar colon part1 = 0 ∧
     scanAccounts [line] [] = [{| Email := part0; Password := part1 |}]) ∨
  (countChar colon line ≠ 1 ∧ scanAccounts [line] [] = []).
Proof.
  pose proof (Split_length colon line) as Hlen.
  cbn [scanAccounts].
  destruct (Split line colon) as [|p0 [|p1 [|p2 ps]]] eqn:E; cbn in Hlen;
    try (right; split; [lia|done]).
  left. split; [lia|]. exists p0, p1.
  apply Split_two in E as (-> & H0 & H1). done.
Qed.

(** X1. The accounts loaded are exactly the pairs [e], [p] without a colon
    whose line [e:p] is among the lines scanned. *)
Theorem loadAccounts_elem
    (lines : list string) (scanErr : option error) (a : Account) :
  a ∈ (loadAccounts (Scanned lines scanErr)).1 ↔
  joinColon (Email a) (Password a) ∈ lines ∧
  countChar colon (Email a) = 0 ∧ countChar colon (Password a) = 0.
Proof.
  cbn [loadAccounts fst].
  induction lines as [|line rest IH].
  - cbn. split; [by intros ?%elem_of_nil | by intros [?%elem_of_nil _]].
  - change (line :: rest) with ([line] ++ rest)%list.
    rewrite scanAccounts_app, elem_of_app, IH, elem_of_app, list_elem_of_singleton.
    destruct (scanAccounts_line line)
      as [(_ & p0 & p1 & -> & H0 & H1 & ->)|(Hn & ->)].
    + rewrite list_elem_of_singleton. split.
      * intros [->|(? & ? & ?)]; cbn; [by split; [left|]|].
        split; [by right|done].
      * intros ([Heq|?] & Ha0 & Ha1); [left|right; done].
        assert (Split (joinColon (Email a) (Password a)) colon
                = [Email a; Password a]) as Hs1.
        { apply Split_two. done. }
        assert (Split (joinColon p0 p1) colon = [p0; p1]) as Hs2.
        { apply Split_two. done. }
        rewrite Heq, Hs2 in Hs1. injection Hs1 as -> ->. by destruct a.
    + split.
      * intros [?%elem_of_nil|(? & ? & ?)]; [done|]. split; [by right|done].
      * intros ([Heq|?] & Ha0 & Ha1); [|right; done].
        exfalso. apply Hn. rewrite <- Heq.
        pose proof (Split_length colon (joinColon (Email a) (Password a)))
          as Hlen.
        rewrite (proj2 (Split_two colon _ _ _)) in Hlen by done.
        cbn in Hlen. lia.
Qed.

(** X2. Lines are read independently and in order: loading a file made of
    two parts gives the accounts of the first part followed by those of the
    second. *)
Theorem loadAccounts_app
    (lines1 lines2 : list string) (e e1 e2 : option error) :
  (loadAccounts (Scanned (lines1 ++ lines2) e)).1
  = ((loadAccounts (Scanned lines1 e1)).1
     ++ (loadAccounts (Scanned lines2 e2)).1)%list.
Proof. apply scanAccounts_app. Qed.

(** X3. A line whose number of colons is not one (no colon, a colon inside
    the password, an empty line) is dropped without any error: the result is
    the same as for the file without that line. *)
Theorem loadAccounts_skips_line
    (lines1 lines2 : list string) (line : string) (scanErr : option error) :
  countChar colon line ≠ 1 →
  loadAccounts (Scanned (lines1 ++ line :: lines2) scanErr)
  = loadAccounts (Scanned (lines1 ++ lines2) scanErr).
Proof.
  intros Hn. cbn [loadAccounts]. f_equal.
  change (line :: lines2) with ([line] ++ lines2)%list.
  rewrite !scanAccounts_app.
  by destruct (scanAccounts_line line) as [(? & _)|(_ & ->)].
Qed.

Lemma loadAccounts_skips_line_witness :
  loadAccounts
    (Scanned (["alice@example.com:correct horse"]
              ++ "bob@example.com:battery:staple" :: ["# accounts"]) None)
  = loadAccounts
      (Scanned (["alice@example.com:correct horse"] ++ ["# accounts"]) None).
Proof.
  apply (loadAccounts_skips_line ["alice@example.com:correct horse"]
           ["# accounts"] "bob@example.com:battery:staple" None).
  vm_compute. lia.
Defined.

(** X4. Writing each account as [email:password] and loading the lines
    gives the accounts back, provided no e-mail and no password holds a
    colon. *)
Theorem loadAccounts_round_trip
    (accounts : list Account) (scanErr : option error) :
  Forall (λ a, countChar colon (Email a) = 0 ∧
               countChar colon (Password a) = 0) accounts →
  loadAccounts
    (Scanned ((λ a, joinColon (Email a) (Password a)) <$> accounts) scanErr)
  = (accounts, scanErr).
Proof.
  intros Hall. cbn [loadAccounts]. f_equal.
  induction Hall as [|a rest [H0 H1] _ IH]; [done|].
  cbn [fmap list_fmap]. cbn [scanAccounts].
  rewrite (proj2 (Split_two colon _ _ _)) by done.
  rewrite scanAccounts_acc, IH. by destruct a.
Qed.

Lemma loadAccounts_round_trip_witness :
  loadAccounts
    (Scanned ((λ a, joinColon (Email a) (Password a))
                <$> [Sample.alice; Sample.bob]) None)
  = ([Sample.alice; Sample.bob], None).
Proof.
  apply (loadAccounts_round_trip [Sample.alice; Sample.bob] None).
  repeat constructor.
Defined.

Lemma Split_joinColon (part0 part1 : string) :
  countChar colon part0 = 0 → countChar colon part1 = 0 →
  Split (joinColon part0 part1) colon = [part0; part1].
Proof. intros H0 H1. by apply Split_two. Qed.

Lemma scanProxies_acc (lines : list string) (proxies : list Proxy) :
  scanProxies lines proxies = (proxies ++ scanProxies lines [])%list.
Proof.
  revert proxies. induction lines as [|line rest IH]; intros proxies.
  - by rewrite app_nil_r.
  - cbn [scanProxies].
    destruct (Split line colon) as [|p0 [|p1 [|p2 ps]]]; try apply IH.
    rewrite IH, (IH ([] ++ _)%list). by rewrite <- app_assoc.
Qed.

Lemma scanProxies_cons (line : string) (rest : list string) :
  scanProxies (line :: rest) []
  = (scanProxies [line] [] ++ scanProxies rest [])%list.
Proof.
  cbn [scanProxies].
  destruct (Split line colon) as [|p0 [|p1 [|p2 ps]]]; try done.
  by rewrite scanProxies_acc.
Qed.

(** X5. The proxies loaded are exactly the pairs [host], [port] without a
    colon whose line [host:port] is among the lines scanned; a line with
    credentials or an IPv6 literal (more than one colon) gives no proxy. *)
Theorem loadProxies_elem
    (lines : list string) (scanErr : option error) (p : Proxy) :
  p ∈ (loadProxies (Scanned lines scanErr)).1 ↔
  joinColon (Server p) (Port p) ∈ lines ∧
  countChar colon (Server p) = 0 ∧ countChar colon (Port p) = 0.
Proof.
  cbn [loadProxies fst].
  induction lines as [|line rest IH].
  - cbn. split; [by intros ?%elem_of_nil | by intros [?%elem_of_nil _]].
  - rewrite scanProxies_cons, elem_of_app, IH, elem_of_cons.
    pose proof (Split_length colon line) as Hlen.
    cbn [scanProxies].
    destruct (Split line colon) as [|q0 [|q1 [|q2 qs]]] eqn:E; cbn in Hlen.
    1,2,4: split;
      [ intros [?%elem_of_nil|(? & ? & ?)]; [done|]; split; [by right|done]
      | intros ([Heq|?] & H0 & H1); [|right; done];
        exfalso; pose proof (Split_joinColon _ _ H0 H1) as Hs;
        rewrite Heq, E in Hs; discriminate ].
    apply Split_two in E as (-> & Hq0 & Hq1). cbn [app].
    rewrite list_elem_of_singleton. split.
    + intros [->|(? & ? & ?)]; cbn; [by split; [left|]|].
      split; [by right|done].
    + intros ([Heq|?] & H0 & H1); [left|right; done].
      pose proof (Split_joinColon _ _ H0 H1) as Hs1.
      pose proof (Split_joinColon _ _ Hq0 Hq1) as Hs2.
      fold (joinColon q0 q1) in Heq. rewrite Heq, Hs2 in Hs1. injection Hs1 as -> ->. by destruct p.
Qed.

(** X6. Writing each proxy as [host:port] and loading the lines gives the
    proxies back, provided no host and no port holds a colon. *)
Theorem loadProxies_round_trip
    (proxies : list Proxy) (scanErr : option error) :
  Forall (λ p, countChar colon (Server p) = 0 ∧
               countChar colon (Port p) = 0) proxies →
  loadProxies
    (Scanned ((λ p, joinColon (Server p) (Port p)) <$> proxies) scanErr)
  = (proxies, scanErr).
Proof.
  intros Hall. cbn [loadProxies]. f_equal.
  induction Hall as [|p rest [H0 H1] _ IH]; [done|].
  cbn [fmap list_fmap]. cbn [scanProxies].
  rewrite (proj2 (Split_two colon _ _ _)) by done.
  rewrite scanProxies_acc, IH. by destruct p.
Qed.

Lemma loadProxies_round_trip_witness :
  loadProxies
    (Scanned ((λ p, joinColon (Server p) (Port p))
                <$> [Sample.proxyA; Sample.proxyB; Sample.proxyC]) None)
  = ([Sample.proxyA; Sample.proxyB; Sample.proxyC], None).
Proof.
  apply (loadProxies_round_trip
           [Sample.proxyA; Sample.proxyB; Sample.proxyC] None).
  repeat constructor.
Defined.

(** ** loadMapping and saveMapping *)

Lemma collect_lookup (mappings : list AccountProxyMapping)
    (mapping : gmap string Proxy) (k : string) :
  collect mappings mapping !! k
  = match last (filter (λ r, apm_Email r = k) mappings) with
    | Some r => Some (apm_Proxy r)
    | None => mapping !! k
    end.
Proof.
  revert mapping. induction mappings as [|r rest IH]; intros mapping; [done|].
  cbn [collect]. rewrite IH, filter_cons.
  destruct (decide (apm_Email r = k)) as [Hk|Hk].
  - rewrite last_cons.
    destruct (last (filter _ rest)); [done|]. by rewrite Hk, lookup_insert_eq.
  - destruct (last (filter _ rest)); [done|]. by rewrite lookup_insert_ne.
Qed.

(** X7. A mapping file that parses loads into the map that gives each
    e-mail the proxy of its last record in the file (later records
    overwrite earlier ones) and nothing to an e-mail without record. *)
Theorem loadMapping_last_record_wins
    (unmarshal : string → error + list AccountProxyMapping)
    (data : string) (mappings : list AccountProxyMapping) :
  unmarshal data = inr mappings →
  ∃ mapping,
    loadMapping unmarshal (Contents data) = inr mapping ∧
    ∀ k, mapping !! k
         = apm_Proxy <$> last (filter (λ r, apm_Email r = k) mappings).
Proof.
  intros Hu. cbn [loadMapping]. rewrite Hu. eexists. split; [done|].
  intros k. rewrite collect_lookup, lookup_empty.
  by destruct (last _).
Qed.

Lemma loadMapping_last_record_wins_witness :
  ∃ mapping,
    loadMapping
      (λ _, inr [ {| apm_Email := "alice@example.com";
                     apm_Proxy := Sample.proxyA |};
                  {| apm_Email := "alice@example.com";
                     apm_Proxy := Sample.proxyB |} ])
      (Contents "[...]") = inr mapping ∧
    ∀ k, mapping !! k
         = apm_Proxy <$>
             last (filter (λ r, apm_Email r = k)
                     [ {| apm_Email := "alice@example.com";
                          apm_Proxy := Sample.proxyA |};
                       {| apm_Email := "alice@example.com";
                          apm_Proxy := Sample.proxyB |} ]).
Proof.
  apply (loadMapping_last_record_wins (λ _, inr _) "[...]").
  reflexivity.
Defined.

Lemma collect_list_to_map (l : list (string * Proxy))
    (mapping : gmap string Proxy) :
  NoDup l.*1 →
  collect (toRecord <$> l) mapping = list_to_map l ∪ mapping.
Proof.
  revert mapping. induction l as [|[k v] l IH]; intros mapping Hnd.
  - cbn. by rewrite (left_id_L ∅ (∪)).
  - apply NoDup_cons in Hnd as [Hk Hnd].
    cbn [fmap list_fmap collect toRecord fst snd list_to_map foldr].
    rewrite IH by done.
    rewrite <- insert_union_l. apply eq_sym, insert_union_r.
    by apply not_elem_of_list_to_map_1.
Qed.

Lemma collect_permutation (entries : list (string * Proxy))
    (mapping : gmap string Proxy) :
  entries ≡ₚ map_to_list mapping →
  collect (toRecord <$> entries) ∅ = mapping.
Proof.
  intros Hperm.
  assert (NoDup entries.*1) as Hnd.
  { rewrite Hperm. apply NoDup_fst_map_to_list. }
  rewrite collect_list_to_map by done.
  rewrite (right_id_L ∅ (∪)).
  rewrite (list_to_map_proper entries (map_to_list mapping)) by done.
  apply list_to_map_to_list.
Qed.

(** X8. Go ranges over the map in an unspecified order when saving; in
    whatever order the records of a mapping come back from the file,
    loadMapping rebuilds that mapping. *)
Theorem loadMapping_any_order
    (unmarshal : string → error + list AccountProxyMapping)
    (data : string) (entries : list (string * Proxy))
    (mapping : gmap string Proxy) :
  entries ≡ₚ map_to_list mapping →
  unmarshal data = inr (toRecord <$> entries) →
  loadMapping unmarshal (Contents data) = inr mapping.
Proof.
  intros Hperm Hu. cbn [loadMapping]. rewrite Hu. f_equal.
  by apply collect_permutation.
Qed.

Lemma loadMapping_any_order_witness :
  loadMapping
    (λ _, inr (toRecord <$>
                 [ ("bob@example.com", Sample.proxyB);
                   ("alice@example.com", Sample.proxyA) ]))
    (Contents "[...]")
  = inr (<["alice@example.com" := Sample.proxyA]>
           (<["bob@example.com" := Sample.proxyB]> ∅)).
Proof.
  apply (loadMapping_any_order (λ _, inr _) "[...]"
           [ ("bob@example.com", Sample.proxyB);
             ("alice@example.com", Sample.proxyA) ]).
  - rewrite map_to_list_insert by reflexivity.
    rewrite map_to_list_insert by reflexivity.
    rewrite map_to_list_empty. apply Permutation_swap.
  - reflexivity.
Defined.

(** X9. When the codec reads back the records written for a mapping, that
    mapping saved without error is the mapping loaded from the file
    afterwards. *)
Theorem saveMapping_loadMapping
    (w : World) (unmarshal : string → error + list AccountProxyMapping)
    (filePath : string) (mapping : gmap string Proxy)
    (fs fs' : gmap string string) :
  (∀ data,
     w_marshalMapping w (toRecord <$> map_to_list mapping) = inr data →
     unmarshal data = inr (toRecord <$> map_to_list mapping)) →
  saveMapping w filePath mapping fs = (None, fs') →
  loadMapping unmarshal (ReadFile fs' filePath) = inr mapping.
Proof.
  intros Hcodec. unfold saveMapping.
  destruct (w_marshalMapping w _) as [e|data] eqn:Hm; [done|].
  unfold writeFile.
  destruct (w_writeFile w filePath data) as [|e [partial|]]; [|done..].
  intros [= <-]. unfold ReadFile. rewrite lookup_insert_eq.
  cbn [loadMapping]. rewrite (Hcodec data eq_refl). f_equal.
  by apply collect_permutation.
Qed.

Lemma saveMapping_loadMapping_witness :
  loadMapping
    (λ _, inr (toRecord <$>
                 map_to_list ({[ "alice@example.com" := Sample.proxyA ]}
                              : gmap string Proxy)))
    (ReadFile (<["account_proxy_mapping.json" := "[]"]> Sample.aliceFile)
       "account_proxy_mapping.json")
  = inr {[ "alice@example.com" := Sample.proxyA ]}.
Proof.
  apply (saveMapping_loadMapping
           (Sample.world (Sample.always 0) Sample.noFailure true)
           (λ _, inr (toRecord <$>
                 map_to_list ({[ "alice@example.com" := Sample.proxyA ]}
                              : gmap string Proxy)))
           "account_proxy_mapping.json"
           {[ "alice@example.com" := Sample.proxyA ]}
           Sample.aliceFile).
  - intros data _. reflexivity.
  - reflexivity.
Defined.

(** ** Scripts of driver calls *)

(** A run of plain driver calls issues them in order up to the first one
    the driver fails, and does not touch the channel. *)
Lemma Run_issue (w : World) (calls : list Call) (b b' : Browser) (st : Status) :
  Run (issue w <$> calls) b = (st, b') →
  chan b' = chan b ∧
  ∃ n, trace b' = (rev (take n calls) ++ trace b)%list ∧
       match st with
       | Nil =>
           n = length calls ∧
           ∀ i c, calls !! i = Some c →
                  w_do w (rev (take i calls) ++ trace b)%list c = None
       | Err e =>
           ∃ i c, n = S i ∧ calls !! i = Some c ∧
                  w_do w (rev (take i calls) ++ trace b)%list c = Some e
       | Blocked => False
       end.
Proof.
  revert b. induction calls as [|c calls IH]; intros b.
  - cbn. intros [= <- <-]. split; [done|]. exists 0. split; [done|].
    split; [done|]. intros i c. by rewrite lookup_nil.
  - cbn [fmap list_fmap Run]. unfold issue at 1.
    destruct (w_do w (trace b) c) as [e|] eqn:Hdo.
    + intros [= <- <-]. split; [done|]. exists 1. split; [done|].
      by exists 0, c.
    + intros Hrun. apply IH in Hrun as (Hchan & n & Htr & Hst).
      cbn [trace chan] in *. split; [done|]. exists (S n).
      split.
      { rewrite Htr. cbn [take rev]. by rewrite <- app_assoc. }
      destruct st as [|e|]; [..|done].
      * destruct Hst as [-> Hall]. split; [done|].
        intros [|i] c' Hc'; cbn in Hc'.
        { by injection Hc' as <-. }
        cbn [take rev]. rewrite <- app_assoc. by apply Hall.
      * destruct Hst as (i & c' & -> & Hc' & Hdo').
        exists (S i), c'. split; [done|]. split; [done|].
        cbn [take rev]. by rewrite <- app_assoc.
Qed.

Lemma performLogin_unfold (w : World) (account : Account) (b : Browser) :
  performLogin w account b
  = match Run (issue w <$> loginSteps account) b with
    | (Nil, b1) =>
        match captureCookies w b1 with
        | (Nil, b2) => (Nil, b2)
        | other => other
        end
    | other => other
    end.
Proof.
  change (performLogin w account b)
    with (Run ((issue w <$> loginSteps account) ++ [captureCookies w])%list b).
  rewrite Run_app. destruct (Run _ b) as [[|e|] b1]; [|done..].
  cbn [Run]. by destruct (captureCookies w b1) as [[|e|] b2].
Qed.

Lemma performLogin_Nil
    (w : World) (account : Account) (b b' : Browser) :
  performLogin w account b = (Nil, b') →
  trace b' = (CCookies :: rev (loginSteps account) ++ trace b)%list ∧
  chan b = None ∧
  chan b' = Some (w_cookies w (rev (loginSteps account) ++ trace b)%list) ∧
  ∀ i c, (loginSteps account ++ [CCookies])%list !! i = Some c →
         w_do w (rev (take i (loginSteps account)) ++ trace b)%list c = None.
Proof.
  rewrite performLogin_unfold.
  destruct (Run _ b) as [[|e|] b1] eqn:Hrun; [|done..].
  apply Run_issue in Hrun as (Hchan & n & Htr & -> & Hall).
  rewrite take_ge in Htr by done.
  unfold captureCookies, Cookies, issue.
  destruct (w_do w (trace b1) CCookies) as [e|] eqn:Hdo; [done|].
  unfold send. cbn [chan trace].
  destruct (chan b1) eqn:Hc; [done|]. intros [= <-]. cbn [trace chan].
  rewrite <- Hchan, Htr. do 3 (split; [done|]).
  intros i c Hc'.
  destruct (decide (i < length (loginSteps account))) as [Hi|Hi].
  - rewrite lookup_app_l in Hc' by done. by apply Hall.
  - assert (i = length (loginSteps account)) as ->.
    { apply lookup_lt_Some in Hc'. rewrite length_app in Hc'. cbn in *. lia. }
    rewrite list_lookup_middle in Hc' by done. injection Hc' as <-.
    rewrite take_ge by done. by rewrite <- Htr.
Qed.

(** X10. A login that succeeds has issued the whole script in order, then
    read the driver's cookies, and has put exactly that cookie set into the
    channel, which was empty. *)
Theorem performLogin_success
    (w : World) (account : Account) (b b' : Browser) :
  performLogin w account b = (Nil, b') →
  trace b' = (CCookies :: rev (loginSteps account) ++ trace b)%list ∧
  chan b = None ∧
  chan b' = Some (w_cookies w (rev (loginSteps account) ++ trace b)%list) ∧
  ∀ i c, (loginSteps account ++ [CCookies])%list !! i = Some c →
         w_do w (rev (take i (loginSteps account)) ++ trace b)%list c = None.
Proof. apply performLogin_Nil. Qed.

Lemma performLogin_success_witness :
  let w := Sample.world (Sample.always 0) Sample.noFailure true in
  let b' := {| trace := (CCookies :: rev (loginSteps Sample.alice))%list;
               chan := Some [Sample.rotated] |} in
  trace b'
  = (CCookies :: rev (loginSteps Sample.alice) ++ trace Sample.fresh)%list ∧
  chan Sample.fresh = None ∧
  chan b'
  = Some (w_cookies w (rev (loginSteps Sample.alice) ++ trace Sample.fresh)%list) ∧
  ∀ i c, (loginSteps Sample.alice ++ [CCookies])%list !! i = Some c →
         w_do w (rev (take i (loginSteps Sample.alice))
                 ++ trace Sample.fresh)%list c = None.
Proof.
  apply (performLogin_success
           (Sample.world (Sample.always 0) Sample.noFailure true)
           Sample.alice Sample.fresh
           {| trace := (CCookies :: rev (loginSteps Sample.alice))%list;
              chan := Some [Sample.rotated] |}).
  reflexivity.
Defined.

(** X11. A login that fails has issued the script up to the call the driver
    failed and none after it; the error returned is that call's error, and
    nothing has been put into the channel. *)
Theorem performLogin_failure
    (w : World) (account : Account) (b b' : Browser) (e : error) :
  performLogin w account b = (Err e, b') →
  chan b' = chan b ∧
  ∃ i c, (loginSteps account ++ [CCookies])%list !! i = Some c ∧
         trace b' = (c :: rev (take i (loginSteps account)) ++ trace b)%list ∧
         w_do w (rev (take i (loginSteps account)) ++ trace b)%list c = Some e.
Proof.
  rewrite performLogin_unfold.
  destruct (Run _ b) as [[|e0|] b1] eqn:Hrun.
  - apply Run_issue in Hrun as (Hchan & n & Htr & -> & _).
    rewrite take_ge in Htr by done.
    unfold captureCookies, Cookies, issue.
    destruct (w_do w (trace b1) CCookies) as [e1|] eqn:Hdo.
    + intros [= <- <-]. cbn [chan trace]. split; [done|].
      exists (length (loginSteps account)), CCookies.
      rewrite list_lookup_middle by done. rewrite take_ge by done.
      by rewrite <- Htr.
    + unfold send. cbn [chan trace]. by destruct (chan b1).
  - intros [= <- <-].
    apply Run_issue in Hrun as (Hchan & n & Htr & i & c & -> & Hc & Hdo).
    split; [done|]. exists i, c.
    split; [by apply lookup_app_l_Some|]. split; [|done].
    rewrite Htr, (take_S_r _ _ _ Hc), rev_app_distr. done.
  - apply Run_issue in Hrun as (_ & n & _ & []).
Qed.

Lemma performLogin_failure_witness :
  let w := Sample.world (Sample.always 0) Sample.signInStuck true in
  let b' := {| trace := [ CWaitVisible "#ap_email"; CSleep 2;
                          CNavigate "https://www.amazon.com/ap/signin" ];
               chan := None |} in
  chan b' = chan Sample.fresh ∧
  ∃ i c, (loginSteps Sample.alice ++ [CCookies])%list !! i = Some c ∧
         trace b'
         = (c :: rev (take i (loginSteps Sample.alice))
              ++ trace Sample.fresh)%list ∧
         w_do w (rev (take i (loginSteps Sample.alice))
                 ++ trace Sample.fresh)%list c
         = Some "context deadline exceeded".
Proof.
  apply (performLogin_failure
           (Sample.world (Sample.always 0) Sample.signInStuck true)
           Sample.alice Sample.fresh
           {| trace := [ CWaitVisible "#ap_email"; CSleep 2;
                         CNavigate "https://www.amazon.com/ap/signin" ];
              chan := None |}
           "context deadline exceeded").
  reflexivity.
Defined.

Lemma performLogin_blocked (w : World) (account : Account) (b b' : Browser) :
  performLogin w account b = (Blocked, b') → is_Some (chan b).
Proof.
  rewrite performLogin_unfold.
  destruct (Run _ b) as [[|e0|] b1] eqn:Hrun; [|done|].
  - apply Run_issue in Hrun as (Hchan & _).
    unfold captureCookies, Cookies, issue.
    destruct (w_do w (trace b1) CCookies); [done|].
    unfold send. cbn [chan trace]. rewrite Hchan.
    by destruct (chan b).
  - apply Run_issue in Hrun as (_ & n & _ & []).
Qed.

(** ** The cookie path of the acquisition *)

Lemma injectCookies_issue (w : World) (cookies : list Cookie) (b : Browser) :
  injectCookies w cookies b = Run (issue w <$> (CSetCookie <$> cookies)) b.
Proof.
  revert b. induction cookies as [|c rest IH]; intros b; [done|].
  cbn [injectCookies fmap list_fmap Run]. unfold SetCookie.
  destruct (issue w (CSetCookie c) b) as [[|e|] b1]; [apply IH|done..].
Qed.

Lemma acquire_stored_unfold
    (w : World) (account : Account) (fs : gmap string string) (b : Browser)
    (cookies : list Cookie) :
  loadCookies w fs (Email account) = inr cookies →
  acquire w account fs b
  = match Run (issue w <$> cookieSteps cookies) b with
    | (Nil, b1) =>
        match validateOrLogin w account cookies b1 with
        | (Nil, b2) => (None, b2)
        | (Err e, b2) => (Some (ErrorUsingCookies e), b2)
        | (Blocked, b2) => (Some Deadlock, b2)
        end
    | (Err e, b1) => (Some (ErrorUsingCookies e), b1)
    | (Blocked, b1) => (Some Deadlock, b1)
    end.
Proof.
  intros Hload. unfold acquire, cookieSteps. rewrite Hload.
  rewrite fmap_app, Run_app. cbn [Run]. rewrite injectCookies_issue.
  destruct (Run (issue w <$> (CSetCookie <$> cookies)) b) as [[|e|] b1];
    [|done..].
  cbn [fmap list_fmap Run]. unfold Navigate, Sleep.
  destruct (issue w (CNavigate _) b1) as [[|e|] b2]; [|done..].
  destruct (issue w (CSleep 2) b2) as [[|e|] b3]; [|done..].
  by destruct (validateOrLogin w account cookies b3) as [[|e|] b4].
Qed.

(** From the driver's answers to the result: the first failing call of a
    list of plain calls ends the run there. *)
Lemma Run_issue_fails (w : World) (calls : list Call) (b : Browser)
    (i : nat) (c : Call) (e : error) :
  calls !! i = Some c →
  (∀ j c', (j < i)%nat → calls !! j = Some c' →
           w_do w (rev (take j calls) ++ trace b)%list c' = None) →
  w_do w (rev (take i calls) ++ trace b)%list c = Some e →
  Run (issue w <$> calls) b
  = (Err e, {| trace := (c :: rev (take i calls) ++ trace b)%list;
               chan := chan b |}).
Proof.
  revert b i. induction calls as [|c0 calls IH]; intros b i Hc Hbefore Hfail.
  - by rewrite lookup_nil in Hc.
  - cbn [fmap list_fmap Run]. unfold issue at 1.
    destruct i as [|i].
    + cbn in Hc, Hfail. injection Hc as ->. by rewrite Hfail.
    + pose proof (Hbefore 0 c0 ltac:(lia) eq_refl) as H0.
      cbn in H0. rewrite H0.
      rewrite (IH _ i); cbn [trace chan].
      * cbn [take rev]. by rewrite <- app_assoc.
      * done.
      * intros j c' Hj Hc'. specialize (Hbefore (S j) c').
        cbn [take rev] in Hbefore. rewrite <- app_assoc in Hbefore.
        apply Hbefore; [lia|done].
      * cbn [take rev] in Hfail. by rewrite <- app_assoc in Hfail.
Qed.

(** X12. On the cookie path, the first call the driver fails while the
    stored cookies are injected and the home page is loaded ends the run
    with that error: the cookies after it are not injected, the validity
    probe is not made, and no login is attempted. *)
Theorem acquire_injection_failure
    (w : World) (account : Account) (fs : gmap string string) (b : Browser)
    (cookies : list Cookie) (i : nat) (c : Call) (e : error) :
  loadCookies w fs (Email account) = inr cookies →
  cookieSteps cookies !! i = Some c →
  (∀ j c', (j < i)%nat → cookieSteps cookies !! j = Some c' →
           w_do w (rev (take j (cookieSteps cookies)) ++ trace b)%list c'
           = None) →
  w_do w (rev (take i (cookieSteps cookies)) ++ trace b)%list c = Some e →
  acquire w account fs b
  = (Some (ErrorUsingCookies e),
     {| trace := (c :: rev (take i (cookieSteps cookies)) ++ trace b)%list;
        chan := chan b |}).
Proof.
  intros Hload Hc Hbefore Hfail.
  rewrite (acquire_stored_unfold _ _ _ _ _ Hload).
  by rewrite (Run_issue_fails w _ b i c e Hc Hbefore Hfail).
Qed.

(** X13. On the cookie path, a validity probe that answers [false] and a
    probe that fails with an error are treated alike: the login script runs
    next, and its error, if any, is reported as an error of the cookie
    path. *)
Theorem acquire_invalid_cookies_login
    (w : World) (account : Account) (fs : gmap string string) (b b1 : Browser)
    (cookies : list Cookie) :
  loadCookies w fs (Email account) = inr cookies →
  Run (issue w <$> cookieSteps cookies) b = (Nil, b1) →
  w_do w (trace b1) (CEvaluate probeScript) ≠ None ∨
  w_evaluate w (trace b1) probeScript = false →
  acquire w account fs b
  = match performLogin w account
            {| trace := CEvaluate probeScript :: trace b1; chan := chan b1 |}
    with
    | (Nil, b2) => (None, b2)
    | (Err e, b2) => (Some (ErrorUsingCookies e), b2)
    | (Blocked, b2) => (Some Deadlock, b2)
    end.
Proof.
  intros Hload Hrun Hprobe.
  rewrite (acquire_stored_unfold _ _ _ _ _ Hload), Hrun.
  unfold validateOrLogin, Evaluate, issue.
  destruct (w_do w (trace b1) (CEvaluate probeScript)) as [e|] eqn:Hdo; [done|].
  destruct Hprobe as [?| ->]; done.
Qed.

Lemma acquire_None
    (w : World) (account : Account) (fs : gmap string string)
    (b b' : Browser) :
  chan b = None →
  acquire w account fs b = (None, b') →
  ∃ cookies,
    chan b' = Some cookies ∧
    ((loadCookies w fs (Email account) = inr cookies ∧
      head (trace b') = Some (CEvaluate probeScript)) ∨
     (head (trace b') = Some CCookies ∧
      cookies = w_cookies w (tail (trace b')))).
Proof.
  intros Hchan.
  assert (∀ b0 b2, performLogin w account b0 = (Nil, b2) →
            ∃ cookies, chan b2 = Some cookies ∧
              head (trace b2) = Some CCookies ∧
              cookies = w_cookies w (tail (trace b2))) as Hlogin.
  { intros b0 b2 H. apply performLogin_Nil in H as (-> & _ & -> & _).
    by eexists. }
  destruct (loadCookies w fs (Email account)) as [e0|cookies] eqn:Hload.
  - unfold acquire. rewrite Hload.
    destruct (performLogin w account b) as [[|e|] b1] eqn:Hl.
    + intros [= <-]. destruct (Hlogin _ _ Hl) as (cs & ? & ? & ?).
      exists cs. split; [done|]. by right.
    + by destruct (OuterHTML w "html" b1) as [[? ?] ?].
    + done.
  - rewrite (acquire_stored_unfold _ _ _ _ _ Hload).
    destruct (Run _ b) as [[|e|] b1] eqn:Hrun; [|done..].
    apply Run_issue in Hrun as (Hchan1 & _).
    unfold validateOrLogin, Evaluate, issue.
    destruct (w_do w (trace b1) (CEvaluate probeScript)) as [e|].
    + destruct (performLogin w account _) as [[|e'|] b2] eqn:Hl; [|done..].
      intros [= <-]. destruct (Hlogin _ _ Hl) as (cs & ? & ? & ?).
      exists cs. split; [done|]. by right.
    + destruct (w_evaluate w (trace b1) probeScript).
      * unfold send. cbn [chan trace]. rewrite Hchan1, Hchan.
        intros [= <-]. exists cookies. split; [done|]. by left.
      * destruct (performLogin w account _) as [[|e'|] b2] eqn:Hl; [|done..].
        intros [= <-]. destruct (Hlogin _ _ Hl) as (cs & ? & ? & ?).
        exists cs. split; [done|]. by right.
Qed.

(** X14. When the acquisition goes on to "Save cookies", the channel holds
    one cookie set: the stored set, the last driver call being the validity
    probe, or the set the driver returned to the last call, a cookie
    read. *)
Theorem acquire_emits_stored_or_fresh
    (w : World) (account : Account) (fs : gmap string string)
    (b b' : Browser) :
  chan b = None →
  acquire w account fs b = (None, b') →
  ∃ cookies,
    chan b' = Some cookies ∧
    ((loadCookies w fs (Email account) = inr cookies ∧
      head (trace b') = Some (CEvaluate probeScript)) ∨
     (head (trace b') = Some CCookies ∧
      cookies = w_cookies w (tail (trace b')))).
Proof. apply acquire_None. Qed.

Lemma acquire_never_deadlocks
    (w : World) (account : Account) (fs : gmap string string)
    (b b' : Browser) :
  chan b = None → acquire w account fs b ≠ (Some Deadlock, b').
Proof.
  intros Hchan.
  destruct (loadCookies w fs (Email account)) as [e0|cookies] eqn:Hload.
  - unfold acquire. rewrite Hload.
    destruct (performLogin w account b) as [[|e|] b1] eqn:Hl; [done|..].
    + by destruct (OuterHTML w "html" b1) as [[? ?] ?].
    + apply performLogin_blocked in Hl as [? Hl]. congruence.
  - rewrite (acquire_stored_unfold _ _ _ _ _ Hload).
    destruct (Run _ b) as [[|e|] b1] eqn:Hrun; [|done|].
    + apply Run_issue in Hrun as (Hchan1 & _).
      assert (∀ tr b2, performLogin w account {| trace := tr; chan := chan b1 |}
                       ≠ (Blocked, b2)) as Hnb.
      { intros tr b2 Hl. apply performLogin_blocked in Hl as [? Hl].
        cbn in Hl. congruence. }
      unfold validateOrLogin, Evaluate, issue.
      destruct (w_do w (trace b1) (CEvaluate probeScript)) as [e|].
      * destruct (performLogin w account _) as [[|e'|] b2] eqn:Hl; [done..|].
        by apply Hnb in Hl.
      * destruct (w_evaluate w (trace b1) probeScript).
        -- unfold send. cbn [chan trace]. by rewrite Hchan1, Hchan.
        -- destruct (performLogin w account _) as [[|e'|] b2] eqn:Hl;
             [done..|]. by apply Hnb in Hl.
    + apply Run_issue in Hrun as (_ & n & _ & []).
Qed.

(** ** The run as a whole *)

Lemma select_Panic (seeded : Rng) (accounts : list Account)
    (proxies : list Proxy) (mapping : gmap string Proxy) (pm : PanicMsg) :
  selectRandomAccountAndProxy seeded accounts proxies mapping = Panic pm →
  pm = InvalidArgumentToIntn.
Proof.
  unfold selectRandomAccountAndProxy.
  destruct (randomElement accounts seeded) as [[a g1]|m] eqn:Ha.
  - destruct (mapping !! Email a); [done|].
    destruct (randomElement proxies g1) as [[p g2]|m] eqn:Hp; [done|].
    intros [= <-]. pose proof (randomElement_Panic _ _ _ Hp) as ->.
    cbn in Hp. by injection Hp as <-.
  - intros [= <-]. pose proof (randomElement_Panic _ _ _ Ha) as ->.
    cbn in Ha. by injection Ha as <-.
Qed.

Lemma select_recorded (seeded : Rng) (accounts : list Account)
    (proxies : list Proxy) (mapping mapping' : gmap string Proxy)
    (account : Account) (proxy : Proxy) (g' : Rng) :
  selectRandomAccountAndProxy seeded accounts proxies mapping
    = Ok (account, proxy, mapping', g') →
  mapping' !! Email account = Some proxy.
Proof.
  intros H. apply select_inv in H as (_ & [[Hm ->]|(_ & _ & ->)]); [done|].
  apply lookup_insert_eq.
Qed.

Lemma redraw_Abort (fuel : nat) (proxies : list Proxy) (proxy newProxy : Proxy)
    (g : Rng) (o : Outcome) :
  redraw fuel proxies proxy newProxy g = Abort o →
  o = Spinning ∨ (o = Panicked InvalidArgumentToIntn ∧ proxies = []).
Proof.
  revert newProxy g. induction fuel as [|fuel IH]; intros newProxy g; cbn;
    destruct (sameProxy newProxy proxy); try done.
  - intros [= <-]. by left.
  - destruct (randomElement proxies g) as [[np g1]|m] eqn:Hd; [apply IH|].
    intros [= <-]. right. pose proof (randomElement_Panic _ _ _ Hd) as ->.
    cbn in Hd. by injection Hd as <-.
Qed.

(** A result other than "still in the loop" does not depend on the number
    of iterations followed. *)
Lemma redraw_fuel_stable (fuel : nat) (proxies : list Proxy)
    (proxy newProxy : Proxy) (g : Rng) :
  redraw fuel proxies proxy newProxy g ≠ Abort Spinning →
  redraw (S fuel) proxies proxy newProxy g
  = redraw fuel proxies proxy newProxy g.
Proof.
  revert newProxy g. induction fuel as [|fuel IH]; intros newProxy g.
  - cbn. by destruct (sameProxy newProxy proxy).
  - intros H. cbn [redraw] in *.
    destruct (sameProxy newProxy proxy); [|done].
    destruct (randomElement proxies g) as [[np g1]|]; [|done].
    by apply IH.
Qed.

Lemma replaceProxy_inv (fuel : nat) (proxies : list Proxy) (proxy : Proxy)
    (account : Account) (mapping : gmap string Proxy) (g : Rng) (b : Browser) :
  match replaceProxy fuel proxies proxy account mapping g b with
  | Return (proxy', mapping', _, b') =>
      proxy' ∈ proxies ∧ sameProxy proxy' proxy = false ∧
      mapping' = <[Email account := proxy']> mapping ∧
      b' = configure proxy' b
  | Abort o => o = Spinning ∨ (o = Panicked InvalidArgumentToIntn ∧ proxies = [])
  end.
Proof.
  unfold replaceProxy.
  destruct (randomElement proxies g) as [[np g1]|m] eqn:Hd.
  - destruct (redraw fuel proxies proxy np g1) as [[np' g2]|o] eqn:Hr.
    + apply redraw_Return in Hr as [Hs Hin].
      apply randomElement_Ok in Hd as (Hnp & _).
      split; [by destruct Hin as [->|?]|done].
    + by apply redraw_Abort in Hr.
  - right. pose proof (randomElement_Panic _ _ _ Hd) as ->.
    cbn in Hd. by injection Hd as <-.
Qed.

Lemma probeAndReplace_inv (fuel : nat) (w : World) (proxies : list Proxy)
    (proxy : Proxy) (account : Account) (mapping : gmap string Proxy)
    (g : Rng) (b : Browser) :
  match probeAndReplace fuel w proxies proxy account mapping g b with
  | (Return (proxy', mapping', _, b'), b1) =>
      chan b' = chan b ∧
      ((proxy' = proxy ∧ mapping' = mapping ∧ b' = b1) ∨
       (proxy' ∈ proxies ∧ sameProxy proxy' proxy = false ∧
        mapping' = <[Email account := proxy']> mapping ∧
        b' = configure proxy' b1))
  | (Abort o, _) =>
      o = Spinning ∨ (o = Panicked InvalidArgumentToIntn ∧ proxies = [])
  end.
Proof.
  unfold probeAndReplace.
  change [Navigate w "https://www.amazon.com"; Sleep w 2]
    with (issue w <$> [CNavigate "https://www.amazon.com"; CSleep 2]).
  destruct (Run _ b) as [[|e|] b1] eqn:Hrun;
    apply Run_issue in Hrun as (Hchan & n & _ & Hst); [|..|done].
  - split; [done|]. by left.
  - pose proof (replaceProxy_inv fuel proxies proxy account mapping g b1) as H.
    destruct (replaceProxy _ _ _ _ _ _ _) as [[[[p' m'] g'] b']|o]; [|done].
    destruct H as (? & ? & ? & ->). split; [done|]. by right.
Qed.

Lemma saveResults_inv (w : World) (account : Account)
    (mapping : gmap string Proxy) (fs : gmap string string) (b : Browser)
    (cookies : list Cookie) (o : Outcome) (m : Machine) :
  chan b = Some cookies →
  saveResults w account mapping fs b = (o, m) →
  mapping_of m = mapping ∧
  ((∃ e, o = ErrorMarshalingCookies e ∧
         w_marshalCookies w cookies = inl e ∧ files m = fs) ∨
   (∃ data fs1,
      w_marshalCookies w cookies = inr data ∧
      ((∃ e, o = ErrorSavingCookies e ∧ files m = fs1 ∧
             writeFile w (cookieFileName (Email account)) data fs
             = (Some e, fs1)) ∨
       (writeFile w (cookieFileName (Email account)) data fs = (None, fs1) ∧
        ∃ r, saveMapping w "account_proxy_mapping.json" mapping fs1
             = (r, files m) ∧
             match r with
             | Some e => o = ErrorSavingMapping e
             | None => o = Success account (cookieFileName (Email account))
             end)))).
Proof.
  intros Hchan. unfold saveResults, receive. rewrite Hchan.
  destruct (w_marshalCookies w cookies) as [e|data] eqn:Hm.
  { intros [= <- <-]. split; [done|]. left. by exists e. }
  destruct (writeFile _ _ _ _) as [[e|] fs1] eqn:Hw.
  { intros [= <- <-]. split; [done|]. right. exists data, fs1.
    split; [done|]. left. by exists e. }
  destruct (saveMapping _ _ _ _) as [[e|] fs2] eqn:Hs;
    intros [= <- <-]; (split; [done|]); right; exists data, fs1;
    (split; [done|]); right; (split; [done|]); by eexists.
Qed.

Lemma acquire_Some (w : World) (account : Account)
    (fs : gmap string string) (b b' : Browser) (o : Outcome) :
  chan b = None →
  acquire w account fs b = (Some o, b') →
  (∃ e, o = ErrorUsingCookies e) ∨ (∃ e html, o = LoginFailed e html).
Proof.
  intros Hchan Hacq.
  assert (o ≠ Deadlock) as Hnd.
  { intros ->. by eapply acquire_never_deadlocks. }
  unfold acquire in Hacq.
  destruct (loadCookies w fs (Email account)) as [e0|cookies].
  - destruct (performLogin w account b) as [[|e1|] bl]; [done|..].
    + destruct (OuterHTML w "html" bl) as [[? html] ?].
      injection Hacq as <- _. right. by eexists _, _.
    + by injection Hacq as <- _.
  - destruct (Run _ b) as [[|e1|] bl]; [done|..].
    + injection Hacq as <- _. left. by eexists.
    + by injection Hacq as <- _.
Qed.

(** The run, by cases: where it ended and what it left. *)
Lemma main_inv (fuel : nat) (w : World) (accounts : list Account)
    (proxies : list Proxy) (mapping : gmap string Proxy)
    (fs : gmap string string) (o : Outcome) (m : Machine) :
  main fuel w accounts proxies mapping fs = (o, m) →
  (o = Panicked InvalidArgumentToIntn ∧ mapping_of m = mapping ∧ files m = fs) ∨
  ∃ account proxy mapping1 g,
    selectRandomAccountAndProxy (w_seed w) accounts proxies mapping
      = Ok (account, proxy, mapping1, g) ∧
    (((o = Spinning ∨ o = Panicked InvalidArgumentToIntn) ∧
      mapping_of m = mapping1 ∧ files m = fs) ∨
     ∃ proxy',
       (proxy' = proxy ∨ proxy' ∈ proxies) ∧
       mapping_of m = <[Email account := proxy']> mapping1 ∧
       ((((∃ e, o = ErrorUsingCookies e) ∨ (∃ e html, o = LoginFailed e html)) ∧
         files m = fs) ∨
        ∃ b3 cookies,
          chan b3 = Some cookies ∧
          saveResults w account (<[Email account := proxy']> mapping1) fs b3
          = (o, m))).
Proof.
  unfold main. intros Hmain.
  destruct (selectRandomAccountAndProxy _ _ _ _) as [[[[a p] m1] g]|pm]
    eqn:Hsel.
  2:{ apply select_Panic in Hsel as ->. injection Hmain as <- <-. by left. }
  right. exists a, p, m1, g. split; [done|].
  pose proof (probeAndReplace_inv fuel w proxies p a m1 g
                (configure p {| trace := []; chan := None |})) as Hp.
  destruct (probeAndReplace _ _ _ _ _ _ _ _) as [[[[[p' m2] g'] b2]|o'] b1].
  2:{ injection Hmain as <- <-. left. split; [|done].
      destruct Hp as [->|[-> _]]; [by left|by right]. }
  right. destruct Hp as [Hchan Hp]. cbn [chan configure] in Hchan.
  exists p'.
  assert ((p' = p ∨ p' ∈ proxies) ∧ m2 = <[Email a := p']> m1) as [Hp' ->].
  { destruct Hp as [(-> & -> & _)|(? & _ & -> & _)].
    - split; [by left|]. apply eq_sym, insert_id.
      by eapply select_recorded.
    - split; [by right|done]. }
  split; [done|].
  destruct (acquire w a fs b2) as [[oa|] b3] eqn:Hacq.
  - injection Hmain as <- <-. split; [done|]. left. split; [|done].
    by eapply acquire_Some.
  - destruct (acquire_None w a fs b2 b3 Hchan Hacq)
      as (cookies & Hc & _).
    pose proof (saveResults_inv _ _ _ _ _ _ _ _ Hc Hmain) as [Hmap _].
    split; [done|]. right. by exists b3, cookies.
Qed.

Lemma writeFile_other (w : World) (path data : string)
    (fs fs' : gmap string string) (r : option error) (other : string) :
  writeFile w path data fs = (r, fs') → other ≠ path →
  fs' !! other = fs !! other.
Proof.
  unfold writeFile. intros H Hne.
  destruct (w_writeFile w path data) as [|e [partial|]];
    injection H as <- <-;
    by rewrite ?lookup_insert_ne, ?lookup_delete_ne.
Qed.

Lemma saveMapping_other (w : World) (path : string)
    (mapping : gmap string Proxy) (fs fs' : gmap string string)
    (r : option error) (other : string) :
  saveMapping w path mapping fs = (r, fs') → other ≠ path →
  fs' !! other = fs !! other.
Proof.
  unfold saveMapping. destruct (w_marshalMapping w _); [by intros [= <- <-]|].
  apply writeFile_other.
Qed.

(** X15. The run never stops on the one-slot channel (the send finds it
    empty, the receive finds it full) and never indexes a pool out of
    range. *)
Theorem main_no_deadlock_no_index_panic
    (fuel : nat) (w : World) (accounts : list Account) (proxies : list Proxy)
    (mapping : gmap string Proxy) (fs : gmap string string) :
  (main fuel w accounts proxies mapping fs).1 ≠ Deadlock ∧
  (main fuel w accounts proxies mapping fs).1 ≠ Panicked IndexOutOfRange.
Proof.
  destruct (main fuel w accounts proxies mapping fs) as [o m] eqn:Hmain.
  cbn [fst]. apply main_inv in Hmain
    as [(-> & _)|(a & p & m1 & g & _ &
          [([->| ->] & _)|(p' & _ & _ &
             [([[e ->]|(e & h & ->)] & _)|(b3 & cs & Hc & Hsave)])])];
    try done.
  apply (saveResults_inv _ _ _ _ _ _ _ _ Hc) in Hsave
    as (_ & [(e & -> & _)|(d & fs1 & _ &
              [(e & -> & _)|(_ & [e|] & _ & ->)])]); done.
Qed.

(** The run is the part up to the acquisition, the acquisition, and the
    saving. *)
Lemma main_split (fuel : nat) (w : World) (accounts : list Account)
    (proxies : list Proxy) (mapping : gmap string Proxy)
    (fs : gmap string string) :
  main fuel w accounts proxies mapping fs
  = match selectAndProbe fuel w accounts proxies mapping with
    | inl (o, mapping1, b1) =>
        (o, {| mapping_of := mapping1; files := fs; browser := b1 |})
    | inr (account, _, mapping2, b2) =>
        match acquire w account fs b2 with
        | (Some o, b3) =>
            (o, {| mapping_of := mapping2; files := fs; browser := b3 |})
        | (None, b3) => saveResults w account mapping2 fs b3
        end
    end.
Proof.
  unfold main, selectAndProbe.
  destruct (selectRandomAccountAndProxy _ _ _ _) as [[[[a p] m1] g]|pm];
    [|done].
  by destruct (probeAndReplace _ _ _ _ _ _ _ _)
    as [[[[[p' m2] g'] b2]|o'] b1].
Qed.

Lemma selectAndProbe_inr (fuel : nat) (w : World) (accounts : list Account)
    (proxies : list Proxy) (mapping mapping2 : gmap string Proxy)
    (a : Account) (proxy : Proxy) (b2 : Browser) :
  selectAndProbe fuel w accounts proxies mapping = inr (a, proxy, mapping2, b2) →
  a ∈ accounts ∧ chan b2 = None ∧ mapping2 !! Email a = Some proxy.
Proof.
  unfold selectAndProbe.
  destruct (selectRandomAccountAndProxy _ _ _ _) as [[[[a0 p] m1] g]|pm]
    eqn:Hsel; [|done].
  pose proof (probeAndReplace_inv fuel w proxies p a0 m1 g
                (configure p {| trace := []; chan := None |})) as Hp.
  destruct (probeAndReplace _ _ _ _ _ _ _ _)
    as [[[[[p' m2] g'] b2']|o'] b1]; [|done].
  intros [= <- <- <- <-]. destruct Hp as [Hchan Hp].
  pose proof (select_recorded _ _ _ _ _ _ _ _ Hsel) as Hrec.
  apply select_inv in Hsel as (Hin & _).
  split; [done|]. split; [done|].
  destruct Hp as [(-> & -> & _)|(_ & _ & -> & _)]; [done|].
  apply lookup_insert_eq.
Qed.

(** The run, when it reaches "Save cookies": the account selected, the
    cookie set the acquisition left in the channel, and the saving. *)
Lemma main_reaches_saving (fuel : nat) (w : World) (accounts : list Account)
    (proxies : list Proxy) (mapping : gmap string Proxy)
    (fs : gmap string string) (o : Outcome) (m : Machine) :
  main fuel w accounts proxies mapping fs = (o, m) →
  (∃ e, o = ErrorMarshalingCookies e) ∨ (∃ e, o = ErrorSavingCookies e) ∨
  (∃ e, o = ErrorSavingMapping e) ∨ (∃ a file, o = Success a file) →
  ∃ a proxy mapping2 b2 b3 cookies,
    selectAndProbe fuel w accounts proxies mapping
      = inr (a, proxy, mapping2, b2) ∧
    acquire w a fs b2 = (None, b3) ∧
    chan b3 = Some cookies ∧
    saveResults w a mapping2 fs b3 = (o, m).
Proof.
  rewrite main_split. intros Hmain Ho.
  destruct (selectAndProbe fuel w accounts proxies mapping)
    as [[[o1 m1] b1]|[[[a p] m2] b2]] eqn:Hsp.
  - exfalso. injection Hmain as <- <-.
    unfold selectAndProbe in Hsp.
    destruct (selectRandomAccountAndProxy _ _ _ _) as [[[[a0 p] m0] g]|pm].
    + pose proof (probeAndReplace_inv fuel w proxies p a0 m0 g
                    (configure p {| trace := []; chan := None |})) as Hp.
      destruct (probeAndReplace _ _ _ _ _ _ _ _)
        as [[[[[p' m2] g'] b2']|o'] b1']; [done|].
      injection Hsp as <- _ _.
      destruct Hp as [->|[-> _]];
        destruct Ho as [[? ?]|[[? ?]|[[? ?]|(? & ? & ?)]]]; done.
    + injection Hsp as <- _ _.
      destruct Ho as [[? ?]|[[? ?]|[[? ?]|(? & ? & ?)]]]; done.
  - destruct (selectAndProbe_inr _ _ _ _ _ _ _ _ _ Hsp) as (_ & Hchan & _).
    destruct (acquire w a fs b2) as [[oa|] b3] eqn:Hacq.
    + exfalso. injection Hmain as <- <-.
      destruct (acquire_Some _ _ _ _ _ _ Hchan Hacq) as [[? ->]|(? & ? & ->)];
        destruct Ho as [[? ?]|[[? ?]|[[? ?]|(? & ? & ?)]]]; done.
    + destruct (acquire_None _ _ _ _ _ Hchan Hacq) as (cookies & Hc & _).
      by exists a, p, m2, b2, b3, cookies.
Qed.

(** X16. A run that ends with the success message selected the account
    named in it, and has written the marshalling of the cookie set its
    acquisition left in the channel to that account's cookie file, and the
    marshalling of the in-memory mapping, which holds the proxy in use for
    the account, to the mapping file; every other file is as before. *)
Theorem main_success_persists
    (fuel : nat) (w : World) (accounts : list Account) (proxies : list Proxy)
    (mapping : gmap string Proxy) (fs : gmap string string)
    (a : Account) (file : string) (m : Machine) :
  main fuel w accounts proxies mapping fs = (Success a file, m) →
  ∃ proxy b2 b3 cookies data,
    selectAndProbe fuel w accounts proxies mapping
      = inr (a, proxy, mapping_of m, b2) ∧
    acquire w a fs b2 = (None, b3) ∧
    chan b3 = Some cookies ∧
    w_marshalCookies w cookies = inr data ∧
    file = cookieFileName (Email a) ∧
    files m !! file = Some data ∧
    a ∈ accounts ∧
    mapping_of m !! Email a = Some proxy ∧
    (∃ mdata,
       w_marshalMapping w (toRecord <$> map_to_list (mapping_of m)) = inr mdata ∧
       files m !! "account_proxy_mapping.json" = Some mdata) ∧
    ∀ path, path ≠ file → path ≠ "account_proxy_mapping.json" →
            files m !! path = fs !! path.
Proof.
  intros Hmain.
  destruct (main_reaches_saving _ _ _ _ _ _ _ _ Hmain)
    as (a0 & p & m2 & b2 & b3 & cs & Hsp & Hacq & Hc & Hsave).
  { do 3 right. by eexists _, _. }
  destruct (selectAndProbe_inr _ _ _ _ _ _ _ _ _ Hsp) as (Hin & _ & Hrec).
  apply (saveResults_inv _ _ _ _ _ _ _ _ Hc) in Hsave
    as (Hmap & [(e & ? & _)|(d & fs1 & Hmc &
              [(e & ? & _)|(Hw & [e|] & Hs & Ho)])]); try done.
  injection Ho as -> ->. rewrite Hmap.
  assert (fs1 !! cookieFileName (Email a0) = Some d) as Hfile.
  { unfold writeFile in Hw.
    destruct (w_writeFile w _ d) as [|? [?|]]; [|done..].
    injection Hw as <-. apply lookup_insert_eq. }
  exists p, b2, b3, cs, d.
  do 5 (split; [done|]).
  split.
  { rewrite (saveMapping_other _ _ _ _ _ _ _ Hs); [done|].
    apply cookieFileName_not_mapping. }
  do 2 (split; [done|]).
  split.
  { unfold saveMapping in Hs.
    change (λ kv : string * Proxy,
              {| apm_Email := kv.1; apm_Proxy := kv.2 |}) with toRecord in Hs.
    destruct (w_marshalMapping w _) as [?|md]; [done|].
    exists md. split; [done|]. unfold writeFile in Hs.
    destruct (w_writeFile w _ md) as [|? [?|]]; [|done..].
    injection Hs as <-. apply lookup_insert_eq. }
  intros path Hp1 Hp2.
  rewrite (saveMapping_other _ _ _ _ _ _ _ Hs) by done.
  by rewrite (writeFile_other _ _ _ _ _ _ _ Hw).
Qed.

Lemma main_success_persists_witness :
  let w := Sample.world (Sample.always 0) Sample.noFailure true in
  let m := (main 0 w [Sample.alice] [Sample.proxyA] ∅ ∅).2 in
  ∃ proxy b2 b3 cookies data,
    selectAndProbe 0 w [Sample.alice] [Sample.proxyA] ∅
      = inr (Sample.alice, proxy, mapping_of m, b2) ∧
    acquire w Sample.alice ∅ b2 = (None, b3) ∧
    chan b3 = Some cookies ∧
    w_marshalCookies w cookies = inr data ∧
    "cookies_alice_example.com.json" = cookieFileName (Email Sample.alice) ∧
    files m !! "cookies_alice_example.com.json" = Some data ∧
    Sample.alice ∈ [Sample.alice] ∧
    mapping_of m !! Email Sample.alice = Some proxy ∧
    (∃ mdata,
       w_marshalMapping w (toRecord <$> map_to_list (mapping_of m)) = inr mdata ∧
       files m !! "account_proxy_mapping.json" = Some mdata) ∧
    ∀ path, path ≠ "cookies_alice_example.com.json" →
            path ≠ "account_proxy_mapping.json" →
            files m !! path = (∅ : gmap string string) !! path.
Proof.
  apply (main_success_persists 0
           (Sample.world (Sample.always 0) Sample.noFailure true)
           [Sample.alice] [Sample.proxyA] ∅ ∅ Sample.alice).
  vm_compute. reflexivity.
Defined.

(** X17. When the run ends with the error of saving the mapping, the
    cookie file of the account it selected has already been written with the
    marshalling of the cookie set its acquisition left in the channel: the
    files then hold the new cookies without the mapping the run used. *)
Theorem main_mapping_error_after_cookies
    (fuel : nat) (w : World) (accounts : list Account) (proxies : list Proxy)
    (mapping : gmap string Proxy) (fs : gmap string string)
    (e : error) (m : Machine) :
  main fuel w accounts proxies mapping fs = (ErrorSavingMapping e, m) →
  ∃ a proxy b2 b3 cookies data,
    selectAndProbe fuel w accounts proxies mapping
      = inr (a, proxy, mapping_of m, b2) ∧
    acquire w a fs b2 = (None, b3) ∧
    chan b3 = Some cookies ∧
    w_marshalCookies w cookies = inr data ∧
    files m !! cookieFileName (Email a) = Some data.
Proof.
  intros Hmain.
  destruct (main_reaches_saving _ _ _ _ _ _ _ _ Hmain)
    as (a0 & p & m2 & b2 & b3 & cs & Hsp & Hacq & Hc & Hsave).
  { do 2 right. left. by eexists. }
  apply (saveResults_inv _ _ _ _ _ _ _ _ Hc) in Hsave
    as (Hmap & [(e' & ? & _)|(d & fs1 & Hmc &
              [(e' & ? & _)|(Hw & [e'|] & Hs & Ho)])]); try done.
  rewrite Hmap. exists a0, p, b2, b3, cs, d.
  do 4 (split; [done|]).
  rewrite (saveMapping_other _ _ _ _ _ _ _ Hs)
    by apply cookieFileName_not_mapping.
  unfold writeFile in Hw.
  destruct (w_writeFile w _ d) as [|? [?|]]; [|done..].
  injection Hw as <-. apply lookup_insert_eq.
Qed.

(** X18. Whatever the outcome, the run leaves every file alone except the
    cookie file of an account of the pool and the mapping file. *)
Theorem main_touches_two_files
    (fuel : nat) (w : World) (accounts : list Account) (proxies : list Proxy)
    (mapping : gmap string Proxy) (fs : gmap string string) (path : string) :
  (∀ a, a ∈ accounts → path ≠ cookieFileName (Email a)) →
  path ≠ "account_proxy_mapping.json" →
  files (main fuel w accounts proxies mapping fs).2 !! path = fs !! path.
Proof.
  intros Hp1 Hp2.
  destruct (main fuel w accounts proxies mapping fs) as [o m] eqn:Hmain.
  cbn [snd]. apply main_inv in Hmain
    as [(_ & _ & ->)|(a0 & p & m1 & g & Hsel &
          [(_ & _ & ->)|(p' & _ & Hmap &
             [(_ & ->)|(b3 & cs & Hc & Hsave)])])];
    try done.
  apply select_inv in Hsel as (Hin & _).
  apply (saveResults_inv _ _ _ _ _ _ _ _ Hc) in Hsave
    as (_ & [(e' & _ & _ & ->)|(d & fs1 & Hmc &
              [(e' & _ & -> & Hw)|(Hw & r & Hs & _)])]); try done.
  - apply (writeFile_other _ _ _ _ _ _ _ Hw). by apply Hp1.
  - rewrite (saveMapping_other _ _ _ _ _ _ _ Hs) by done.
    apply (writeFile_other _ _ _ _ _ _ _ Hw). by apply Hp1.
Qed.

Lemma main_touches_two_files_witness :
  files (main 0 (Sample.world (Sample.always 0) Sample.noFailure true)
              [Sample.bob] [Sample.proxyA] ∅ Sample.aliceFile).2
    !! "cookies_alice_example.com.json"
  = Sample.aliceFile !! "cookies_alice_example.com.json".
Proof.
  apply (main_touches_two_files 0
           (Sample.world (Sample.always 0) Sample.noFailure true)
           [Sample.bob] [Sample.proxyA] ∅ Sample.aliceFile
           "cookies_alice_example.com.json").
  - intros a Ha. apply list_elem_of_singleton in Ha. rewrite Ha. discriminate.
  - discriminate.
Defined.

(** X19. The mapping in memory at the end of the run is the one loaded or
    differs from it in the entry of one account of the pool, set to a proxy
    of the pool. *)
Theorem main_mapping_change
    (fuel : nat) (w : World) (accounts : list Account) (proxies : list Proxy)
    (mapping : gmap string Proxy) (fs : gmap string string) :
  mapping_of (main fuel w accounts proxies mapping fs).2 = mapping ∨
  ∃ a p, a ∈ accounts ∧ p ∈ proxies ∧
         mapping_of (main fuel w accounts proxies mapping fs).2
         = <[Email a := p]> mapping.
Proof.
  destruct (main fuel w accounts proxies mapping fs) as [o m] eqn:Hmain.
  cbn [snd]. apply main_inv in Hmain
    as [(_ & -> & _)|(a & p & m1 & g & Hsel & Hrest)]; [by left|].
  pose proof (select_recorded _ _ _ _ _ _ _ _ Hsel) as Hrec.
  apply select_inv in Hsel as (Hin & Hm1).
  assert (m1 = mapping ∨ (p ∈ proxies ∧ m1 = <[Email a := p]> mapping)) as Hm1'.
  { destruct Hm1 as [[_ ->]|(_ & ? & ->)]; [by left|by right]. }
  destruct Hrest as [(_ & -> & _)|(p' & Hp' & -> & _)].
  - destruct Hm1' as [->|[? ->]]; [by left|right; by exists a, p].
  - destruct Hp' as [->|Hp'].
    + rewrite (insert_id _ _ _ Hrec).
      destruct Hm1' as [->|[? ->]]; [by left|right; by exists a, p].
    + right. exists a, p'. split; [done|]. split; [done|].
      destruct Hm1' as [->|[? ->]]; [done|]. apply insert_insert_eq.
Qed.

Lemma main_mapping_error_after_cookies_witness :
  let w := Sample2.mappingReadOnly (Sample.always 0) Sample.noFailure true in
  let m := (main 0 w [Sample.alice] [Sample.proxyA] ∅ ∅).2 in
  ∃ a proxy b2 b3 cookies data,
    selectAndProbe 0 w [Sample.alice] [Sample.proxyA] ∅
      = inr (a, proxy, mapping_of m, b2) ∧
    acquire w a ∅ b2 = (None, b3) ∧
    chan b3 = Some cookies ∧
    w_marshalCookies w cookies = inr data ∧
    files m !! cookieFileName (Email a) = Some data.
Proof.
  apply (main_mapping_error_after_cookies 0
           (Sample2.mappingReadOnly (Sample.always 0) Sample.noFailure true)
           [Sample.alice] [Sample.proxyA] ∅ ∅ "permission denied").
  vm_compute. reflexivity.
Defined.

Lemma acquire_injection_failure_witness :
  acquire (Sample.world (Sample.always 0) Sample2.rejectsSession true)
          Sample.alice Sample.aliceFile Sample.fresh
  = (Some (ErrorUsingCookies "invalid cookie fields"),
     {| trace := (CSetCookie Sample.stored
                  :: rev (take 0 (cookieSteps [Sample.stored]))
                  ++ trace Sample.fresh)%list;
        chan := chan Sample.fresh |}).
Proof.
  apply (acquire_injection_failure
           (Sample.world (Sample.always 0) Sample2.rejectsSession true)
           Sample.alice Sample.aliceFile Sample.fresh [Sample.stored]
           0 (CSetCookie Sample.stored) "invalid cookie fields").
  - reflexivity.
  - reflexivity.
  - intros j c' Hj. lia.
  - reflexivity.
Defined.

Lemma acquire_invalid_cookies_login_witness :
  let w := Sample.world (Sample.always 0) Sample2.probeBroken true in
  let b1 := {| trace := rev (cookieSteps [Sample.stored]); chan := None |} in
  acquire w Sample.alice Sample.aliceFile Sample.fresh
  = match performLogin w Sample.alice
            {| trace := CEvaluate probeScript :: trace b1; chan := chan b1 |}
    with
    | (Nil, b2) => (None, b2)
    | (Err e, b2) => (Some (ErrorUsingCookies e), b2)
    | (Blocked, b2) => (Some Deadlock, b2)
    end.
Proof.
  apply (acquire_invalid_cookies_login
           (Sample.world (Sample.always 0) Sample2.probeBroken true)
           Sample.alice Sample.aliceFile Sample.fresh
           {| trace := rev (cookieSteps [Sample.stored]); chan := None |}
           [Sample.stored]).
  - reflexivity.
  - reflexivity.
  - left. discriminate.
Defined.

Lemma acquire_emits_stored_or_fresh_witness :
  let w := Sample.world (Sample.always 0) Sample.noFailure false in
  let b' := (acquire w Sample.alice Sample.aliceFile Sample.fresh).2 in
  ∃ cookies,
    chan b' = Some cookies ∧
    ((loadCookies w Sample.aliceFile (Email Sample.alice) = inr cookies ∧
      head (trace b') = Some (CEvaluate probeScript)) ∨
     (head (trace b') = Some CCookies ∧
      cookies = w_cookies w (tail (trace b')))).
Proof.
  apply (acquire_emits_stored_or_fresh
           (Sample.world (Sample.always 0) Sample.noFailure false)
           Sample.alice Sample.aliceFile Sample.fresh).
  - reflexivity.
  - vm_compute. reflexivity.
Defined.

(** ** The number of loop iterations followed *)

Lemma probeAndReplace_fuel_stable (fuel : nat) (w : World)
    (proxies : list Proxy) (proxy : Proxy) (account : Account)
    (mapping : gmap string Proxy) (g : Rng) (b : Browser) :
  (probeAndReplace fuel w proxies proxy account mapping g b).1
    ≠ Abort Spinning →
  probeAndReplace (S fuel) w proxies proxy account mapping g b
  = probeAndReplace fuel w proxies proxy account mapping g b.
Proof.
  unfold probeAndReplace.
  destruct (Run _ b) as [[|e|] b1]; [done| |done].
  cbn [fst]. unfold replaceProxy.
  destruct (randomElement proxies g) as [[np g1]|]; [|done].
  intros H. rewrite redraw_fuel_stable; [done|].
  intros Hs. by rewrite Hs in H.
Qed.

(** The bound on the iterations followed does not matter to a run that is
    not left inside the replacement loop. *)
Lemma main_fuel_stable
    (fuel extra : nat) (w : World) (accounts : list Account)
    (proxies : list Proxy) (mapping : gmap string Proxy)
    (fs : gmap string string) :
  (main fuel w accounts proxies mapping fs).1 ≠ Spinning →
  main (extra + fuel) w accounts proxies mapping fs
  = main fuel w accounts proxies mapping fs.
Proof.
  intros Hns. induction extra as [|extra IH]; [done|].
  rewrite <- IH in Hns. rewrite <- IH. clear IH.
  cbn [Nat.add]. revert Hns. generalize (extra + fuel). intros n.
  unfold main.
  destruct (selectRandomAccountAndProxy _ _ _ _) as [[[[a p] m1] g]|pm];
    [|done].
  intros Hns. rewrite probeAndReplace_fuel_stable; [done|].
  intros Hs.
  destruct (probeAndReplace n _ _ _ _ _ _ _) as [[r|o] b1]; [done|].
  cbn in Hs, Hns. by injection Hs as ->.
Qed.

(** ** How often the driver is configured *)







(** ** The name of the cookie file *)

Lemma replaceAt_app (s1 s2 : string) :
  replaceAt (s1 +:+ s2) = replaceAt s1 +:+ replaceAt s2.
Proof. induction s1 as [|c s1 IH]; simpl; [done|by rewrite IH]. Qed.

Lemma append_inj_l (s t1 t2 : string) : s +:+ t1 = s +:+ t2 → t1 = t2.
Proof. induction s as [|c s IH]; simpl; [done|]. intros [= H]. by apply IH. Qed.

Lemma length_append (s t : string) :
  String.length (s +:+ t) = String.length s + String.length t.
Proof. induction s as [|c s IH]; simpl; [done|by rewrite IH]. Qed.

Lemma append_inj_r (s1 s2 suffix : string) :
  s1 +:+ suffix = s2 +:+ suffix → s1 = s2.
Proof.
  revert s2. induction s1 as [|c s1 IH]; intros [|c2 s2] H; simpl in H.
  - done.
  - exfalso. apply (f_equal String.length) in H.
    rewrite !length_append in H. simpl in H. lia.
  - exfalso. apply (f_equal String.length) in H.
    rewrite !length_append in H. simpl in H. lia.
  - injection H as -> H. f_equal. by apply IH.
Qed.

Lemma replaceAt_inj (s1 s2 : string) :
  countChar "_" s1 = 0 → countChar "_" s2 = 0 →
  replaceAt s1 = replaceAt s2 → s1 = s2.
Proof.
  revert s2. induction s1 as [|c1 s1 IH]; intros [|c2 s2]; simpl; try done.
  destruct (Ascii.eqb c1 "_") eqn:E1; [done|].
  destruct (Ascii.eqb c2 "_") eqn:E2; [done|].
  simpl. intros H1 H2.
  destruct (Ascii.eqb c1 "@") eqn:A1; destruct (Ascii.eqb c2 "@") eqn:A2.
  - intros [= Hs]. apply Ascii.eqb_eq in A1, A2. subst. f_equal. by apply IH.
  - intros [= Hc Hs]. subst. by rewrite Ascii.eqb_refl in E2.
  - intros [= Hc Hs]. subst. by rewrite Ascii.eqb_refl in E1.
  - intros [= Hc Hs]. subst. f_equal. by apply IH.
Qed.

(** X22. Two accounts whose e-mails hold no underscore have different
    cookie files unless the e-mails are equal. *)
Theorem cookieFileName_inj (email1 email2 : string) :
  countChar "_" email1 = 0 → countChar "_" email2 = 0 →
  cookieFileName email1 = cookieFileName email2 →
  email1 = email2.
Proof.
  intros H1 H2. unfold cookieFileName. intros H.
  apply append_inj_l, append_inj_r in H. by apply replaceAt_inj.
Qed.

Lemma cookieFileName_inj_witness :
  "alice@example.com" = "alice@example.com".
Proof.
  apply (cookieFileName_inj "alice@example.com" "alice@example.com");
    reflexivity.
Defined.

(** X23. E-mails that differ only in an at sign against an underscore
    share one cookie file: the name does not tell them apart. *)
Theorem cookieFileName_collision (prefix suffix : string) :
  cookieFileName (prefix +:+ String "@" suffix)
  = cookieFileName (prefix +:+ String "_" suffix).
Proof.
  unfold cookieFileName. do 2 f_equal.
  by rewrite !replaceAt_app.
Qed.

(** X24. The cookie file name holds no at sign, whatever the e-mail. *)
Theorem cookieFileName_no_at (email : string) :
  countChar "@" (cookieFileName email) = 0.
Proof.
  unfold cookieFileName.
  assert (∀ s t, countChar "@" (s +:+ t)
                 = countChar "@" s + countChar "@" t) as Happ.
  { intros s t. induction s as [|c s IH]; simpl; [done|]. rewrite IH. lia. }
  rewrite !Happ.
  assert (countChar "@" (replaceAt email) = 0) as ->.
  { induction email as [|c s IH]; simpl; [done|].
    destruct (Ascii.eqb c "@") eqn:E; simpl; [done|]. by rewrite E. }
  reflexivity.
Qed.

(** ** Runs in which nothing fails *)

Lemma Run_issue_ok (w : World) (calls : list Call) (b : Browser) :
  (∀ tr c, w_do w tr c = None) →
  Run (issue w <$> calls) b
  = (Nil, {| trace := (rev calls ++ trace b)%list; chan := chan b |}).
Proof.
  intros Hok. revert b. induction calls as [|c calls IH]; intros b.
  - by destruct b.
  - cbn [fmap list_fmap Run]. unfold issue at 1. rewrite Hok, IH.
    cbn [trace chan rev]. by rewrite <- app_assoc.
Qed.

Lemma performLogin_ok (w : World) (account : Account) (b : Browser) :
  (∀ tr c, w_do w tr c = None) → chan b = None →
  ∃ b', performLogin w account b = (Nil, b') ∧ is_Some (chan b').
Proof.
  intros Hok Hchan. rewrite performLogin_unfold, (Run_issue_ok _ _ _ Hok).
  unfold captureCookies, Cookies, issue. rewrite Hok.
  unfold send. cbn [chan trace]. rewrite Hchan. by eexists.
Qed.

(** X25. With an empty cookie store (no cookie file for any account of the
    pool), non-empty pools, a driver that fails no call, a codec that
    marshals and a disk that takes the writes, the run ends with the success
    message for an account of the pool. *)
Theorem main_succeeds_when_nothing_fails
    (fuel : nat) (w : World) (accounts : list Account) (proxies : list Proxy)
    (mapping : gmap string Proxy) (fs : gmap string string) :
  accounts ≠ [] → proxies ≠ [] →
  (∀ a, a ∈ accounts → fs !! cookieFileName (Email a) = None) →
  (∀ tr c, w_do w tr c = None) →
  (∀ cookies, ∃ data, w_marshalCookies w cookies = inr data) →
  (∀ records, ∃ data, w_marshalMapping w records = inr data) →
  (∀ path data, w_writeFile w path data = Written) →
  ∃ a m, a ∈ accounts ∧
         main fuel w accounts proxies mapping fs
         = (Success a (cookieFileName (Email a)), m).
Proof.
  intros Ha Hp Hnone Hok Hmc Hmm Hwr. unfold main.
  destruct (select_total (w_seed w) accounts proxies mapping Ha Hp)
    as ([[[a p] m1] g] & Hsel).
  rewrite Hsel. apply select_inv in Hsel as (Hin & _).
  unfold probeAndReplace.
  change [Navigate w "https://www.amazon.com"; Sleep w 2]
    with (issue w <$> [CNavigate "https://www.amazon.com"; CSleep 2]).
  rewrite (Run_issue_ok _ _ _ Hok).
  set (b2 := {| trace := _; chan := _ |}).
  assert (chan b2 = None) as Hchan by done.
  unfold acquire, loadCookies. rewrite (Hnone a Hin).
  destruct (performLogin_ok w a b2 Hok Hchan) as (b3 & -> & [cs Hcs]).
  exists a. unfold saveResults, receive. rewrite Hcs.
  destruct (Hmc cs) as [d ->]. unfold writeFile at 1. rewrite Hwr.
  unfold saveMapping. destruct (Hmm (toRecord <$> map_to_list m1)) as [d2 Hd2].
  change (λ kv : string * Proxy,
            {| apm_Email := kv.1; apm_Proxy := kv.2 |}) with toRecord.
  rewrite Hd2.
  unfold writeFile. rewrite Hwr. by eexists.
Qed.

Lemma main_succeeds_when_nothing_fails_witness :
  ∃ a m, a ∈ [Sample.alice; Sample.bob] ∧
         main 0 (Sample.world Sample.counting Sample.noFailure false)
              [Sample.alice; Sample.bob] [Sample.proxyA; Sample.proxyB]
              ∅ ∅
         = (Success a (cookieFileName (Email a)), m).
Proof.
  apply (main_succeeds_when_nothing_fails 0
           (Sample.world Sample.counting Sample.noFailure false)
           [Sample.alice; Sample.bob] [Sample.proxyA; Sample.proxyB]
           ∅ ∅).
  - discriminate.
  - discriminate.
  - intros a _. apply lookup_empty.
  - reflexivity.
  - intros cookies. eexists. reflexivity.
  - intros records. eexists. reflexivity.
  - reflexivity.
Defined.

(** X26. When the cookies cannot be marshalled or the cookie file cannot be
    written, the run returns before it reaches the mapping file: that file
    is as before, so a proxy newly assigned in this run is not kept. *)
Theorem main_cookie_error_keeps_mapping_file
    (fuel : nat) (w : World) (accounts : list Account) (proxies : list Proxy)
    (mapping : gmap string Proxy) (fs : gmap string string)
    (o : Outcome) (m : Machine) :
  main fuel w accounts proxies mapping fs = (o, m) →
  (∃ e, o = ErrorMarshalingCookies e ∨ o = ErrorSavingCookies e) →
  files m !! "account_proxy_mapping.json"
  = fs !! "account_proxy_mapping.json".
Proof.
  intros Hmain [e0 Ho]. apply main_inv in Hmain
    as [(? & _)|(a & p & m1 & g & _ &
          [([?|?] & _)|(p' & _ & _ &
             [([[e ?]|(e & h & ?)] & _)|(b3 & cs & Hc & Hsave)])])];
    try (destruct Ho; congruence).
  apply (saveResults_inv _ _ _ _ _ _ _ _ Hc) in Hsave
    as (_ & [(e' & _ & _ & Hfs)|(d & fs1 & Hmc &
              [(e' & _ & Hfs & Hw)|(Hw & r & Hs & Hr)])]).
  - by rewrite Hfs.
  - rewrite Hfs. apply (writeFile_other _ _ _ _ _ _ _ Hw).
    apply not_eq_sym, cookieFileName_not_mapping.
  - destruct r; destruct Ho; congruence.
Qed.

Lemma main_cookie_error_keeps_mapping_file_witness :
  let w := Sample2.cookiesReadOnly (Sample.always 0) Sample.noFailure true in
  files (main 0 w [Sample.alice] [Sample.proxyA] ∅ Sample2.oldMapping).2
    !! "account_proxy_mapping.json"
  = Sample2.oldMapping !! "account_proxy_mapping.json".
Proof.
  apply (main_cookie_error_keeps_mapping_file 0
           (Sample2.cookiesReadOnly (Sample.always 0) Sample.noFailure true)
           [Sample.alice] [Sample.proxyA] ∅ Sample2.oldMapping
           (ErrorSavingCookies "read-only file system")).
  - vm_compute. reflexivity.
  - exists "read-only file system". by right.
Defined.
